(** * Minesweeper-AI: the knowledge base of [minesweeper.py]

  A shallow embedding of the classes [Sentence] and [MinesweeperAI] of
  [src/minesweeper/minesweeper.py], and the properties of the inference
  engine checked against it.

  Python values are modelled as follows.
  - an [int] is a [Z] (Python integers do not wrap around);
  - a cell [(row, col)] is a pair of [Z];
  - a [set] of cells is a [gset (Z * Z)];
  - a [Sentence] object is mutable and shared between lists, so sentences
    live in a store ([list Sentence.t], a reference is an index) and
    [self.knowledge] is a list of references. *)

From Stdlib Require Import ZArith Lia.
From stdpp Require Import base decidable option list sets gmap.

Abbreviation Cell := (Z * Z)%type (only parsing).

(** ** class Sentence *)

Module Sentence.

Record t : Type := mk { cells : gset Cell; count : Z }.

#[global] Instance t_eq_dec : EqDecision t.
Proof. solve_decision. Defined.

(** [__init__(self, cells, count)]: [self.cells = set(cells)], a fresh set. *)
Definition init (cs : gset Cell) (n : Z) : t := mk cs n.

(** [__eq__]: same cell set and same count. *)
Definition eqb (a b : t) : bool :=
  bool_decide (cells a = cells b) && bool_decide (count a = count b).

(** Methods are written in state-passing style: the sentence [self] goes in,
    the returned value and [self] as the method leaves it come out. *)

(** [known_mines]: [self.cells] if [self.count == len(self.cells)], else [set()]. *)
Definition known_mines (s : t) : gset Cell * t :=
  if bool_decide (count s = Z.of_nat (size (cells s)))
  then (cells s, s) else (∅, s).

(** [known_safes]: [self.cells] if [self.count == 0], else [set()]. *)
Definition known_safes (s : t) : gset Cell * t :=
  if bool_decide (count s = 0%Z) then (cells s, s) else (∅, s).

(** [mark_mine]: [if cell in self.cells: self.cells.remove(cell); self.count -= 1]. *)
Definition mark_mine (c : Cell) (s : t) : t :=
  if bool_decide (c ∈ cells s)
  then mk (cells s ∖ {[c]}) (count s - 1)
  else s.

(** [mark_safe]: [if cell in self.cells: self.cells.remove(cell)]. *)
Definition mark_safe (c : Cell) (s : t) : t :=
  if bool_decide (c ∈ cells s)
  then mk (cells s ∖ {[c]}) (count s)
  else s.

End Sentence.

Abbreviation Sentence := Sentence.t.

(** ** class MinesweeperAI *)

Module MinesweeperAI.

(** A reference to a [Sentence] object: its index in the store. *)
Abbreviation ref := nat (only parsing).

Record t : Type := mk {
  height : Z;
  width : Z;
  moves_made : gset Cell;
  mines : gset Cell;
  safes : gset Cell;
  (** [self.knowledge]: a Python list of references to sentences. *)
  knowledge : list ref;
  (** the sentence objects allocated so far, mutated in place; an object no
      list refers to any more stays here as garbage. *)
  store : list Sentence
}.

(** [__init__(self, height, width)]. *)
Definition init (h w : Z) : t := mk h w ∅ ∅ ∅ [] [].

Definition set_store (ai : t) (st : list Sentence) : t :=
  mk (height ai) (width ai) (moves_made ai) (mines ai) (safes ai)
     (knowledge ai) st.

Definition set_knowledge (ai : t) (k : list ref) : t :=
  mk (height ai) (width ai) (moves_made ai) (mines ai) (safes ai)
     k (store ai).

(** [for sentence in self.knowledge: sentence.m(cell)], for a method [m]
    that mutates the sentence. *)
Definition for_each_sentence (m : Sentence → Sentence)
    (k : list ref) (st : list Sentence) : list Sentence :=
  foldl (λ st r, alter m r st) st k.

(** [mark_mine(self, cell)]. *)
Definition mark_mine (c : Cell) (ai : t) : t :=
  mk (height ai) (width ai) (moves_made ai)
     ({[c]} ∪ mines ai) (safes ai) (knowledge ai)
     (for_each_sentence (Sentence.mark_mine c) (knowledge ai) (store ai)).

(** [mark_safe(self, cell)]. *)
Definition mark_safe (c : Cell) (ai : t) : t :=
  mk (height ai) (width ai) (moves_made ai)
     (mines ai) ({[c]} ∪ safes ai) (knowledge ai)
     (for_each_sentence (Sentence.mark_safe c) (knowledge ai) (store ai)).

(** [range(x - 1, x + 2)]. *)
Definition range3 (x : Z) : list Z := [x - 1; x; x + 1]%Z.

(** [0 <= x < n]. *)
Definition in_range (x n : Z) : bool :=
  bool_decide (0 ≤ x)%Z && bool_decide (x < n)%Z.

(** Lines 202-209: the cells of the 3x3 block around [cell] that are inside
    the board and not in [self.safes], in the order the loops add them. *)
Definition neighbour_list (ai : t) (cell : Cell) : list Cell :=
  row ← range3 cell.1;
  if in_range row (height ai) then
    col ← range3 cell.2;
    if in_range col (width ai) then
      if bool_decide ((row, col) ∉ safes ai) then [(row, col)] else []
    else []
  else [].

Definition neighbour_cells (ai : t) (cell : Cell) : gset Cell :=
  list_to_set (neighbour_list ai cell).

(** The test [p] on the sentence object [r]. *)
Definition sentence_at (st : list Sentence) (p : Sentence → bool) (r : ref) : bool :=
  match st !! r with Some s => p s | None => false end.

(** [s in self.knowledge]: some element of the list is [==] to [s]. *)
Definition in_knowledge (s : Sentence) (ai : t) : bool :=
  existsb (sentence_at (store ai) (λ s', Sentence.eqb s' s)) (knowledge ai).

(** [self.knowledge.append(s)] for a sentence object [s] just created. *)
Definition append (s : Sentence) (ai : t) : t :=
  mk (height ai) (width ai) (moves_made ai) (mines ai) (safes ai)
     (knowledge ai ++ [length (store ai)]) (store ai ++ [s]).

(** Line 231: [self.knowledge = [s for s in self.knowledge if len(s.cells) > 0]],
    a new list of the same objects. *)
Definition drop_empty (ai : t) : t :=
  set_knowledge ai
    (List.filter
       (sentence_at (store ai) (λ s, bool_decide (0 < size (Sentence.cells s))))
       (knowledge ai)).

(** Lines 234-240: the body of [for other_sentence in self.knowledge], for
    the sentence object [r] of the enclosing loop and the object [o] the
    inner loop is at. [None] stands for a reference that is not in the store,
    which Python cannot have. *)
Definition subset_step (r o : ref) (ai : t) : option t :=
  sentence ← store ai !! r;
  other_sentence ← store ai !! o;
  if negb (Sentence.eqb sentence other_sentence)
     && bool_decide (Sentence.cells other_sentence ⊆ Sentence.cells sentence)
  then
    let difference_cells :=
      Sentence.cells sentence ∖ Sentence.cells other_sentence in
    let difference_count :=
      (Sentence.count sentence - Sentence.count other_sentence)%Z in
    let subset_sentence := Sentence.init difference_cells difference_count in
    if negb (in_knowledge subset_sentence ai)
    then Some (append subset_sentence ai)
    else Some ai
  else Some ai.

(** Line 233: [for other_sentence in self.knowledge]. The list grows while it
    is iterated, and Python's list iterator visits the appended elements too:
    the loop is on the index [i], and ends when [i] reaches the current
    length. [fuel] bounds the number of iterations; [None] is returned when it
    runs out. *)
Fixpoint subset_loop (fuel : nat) (r : ref) (i : nat) (ai : t) : option t :=
  match fuel with
  | O => None
  | S fuel =>
      match knowledge ai !! i with
      | None => Some ai
      | Some o => ai ← subset_step r o ai; subset_loop fuel r (S i) ai
      end
  end.

(** The iterations the loop of lines 233-240 is given: it never needs more
    ([subset_loop_terminates] below). *)
Definition subset_fuel (ai : t) : nat := S (2 * length (knowledge ai)).

(** Lines 222-240: the body of [for sentence in self.knowledge], for the
    sentence object [r]. The two sets of cells are copies, and are gone
    through in the order of [elements]; Python's order is its own, and the
    state the loops end in is the same ([marks_safe_any_order],
    [marks_mine_any_order]). *)
Definition infer_step (r : ref) (ai : t) : option t :=
  sentence ← store ai !! r;
  let sentence_safes := (Sentence.known_safes sentence).1 in
  let sentence_mines := (Sentence.known_mines sentence).1 in
  let ai := foldl (λ ai cell, mark_safe cell ai) ai (elements sentence_safes) in
  let ai := foldl (λ ai cell, mark_mine cell ai) ai (elements sentence_mines) in
  let ai := drop_empty ai in
  subset_loop (subset_fuel ai) r 0 ai.

(** Line 221: [for sentence in self.knowledge]. The list object that is
    iterated is the one [self.knowledge] names when the loop starts; line 231
    rebinds [self.knowledge] to a new list in the first iteration, before
    anything is appended, so the iterated list [l0] never changes. *)
Fixpoint infer_loop (l0 : list ref) (ai : t) : option t :=
  match l0 with
  | [] => Some ai
  | r :: l0 => ai ← infer_step r ai; infer_loop l0 ai
  end.

(** Lines 198-200: the move is recorded and its cell marked safe. *)
Definition note_move (cell : Cell) (ai : t) : t :=
  let ai := mk (height ai) (width ai) ({[cell]} ∪ moves_made ai)
               (mines ai) (safes ai) (knowledge ai) (store ai) in
  if bool_decide (cell ∉ safes ai) then mark_safe cell ai else ai.

(** Lines 202-218: the sentence of the observation is built and appended. *)
Definition add_sentence (cell : Cell) (count : Z) (ai : t) : t :=
  let neighbour_cells := neighbour_cells ai cell in
  let known_mines_in_neighbours := filter (.∈ mines ai) neighbour_cells in
  let neighbour_cells := neighbour_cells ∖ known_mines_in_neighbours in
  let count := (count - Z.of_nat (size known_mines_in_neighbours))%Z in
  let new_sentence := Sentence.init neighbour_cells count in
  if negb (in_knowledge new_sentence ai)
     && bool_decide (Sentence.cells new_sentence ≠ ∅)
  then append new_sentence ai
  else ai.

(** [add_knowledge(self, cell, count)]. *)
Definition add_knowledge (cell : Cell) (count : Z) (ai : t) : option t :=
  let ai := note_move cell ai in
  let ai := add_sentence cell count ai in
  infer_loop (knowledge ai) ai.

(** [make_safe_move(self)]. Python iterates over the set [self.safes] in an
    order of its own: [order] is that order, a list of the elements of
    [self.safes]. The method returns its result and leaves the agent as
    it is. *)
Definition make_safe_move (order : list Cell) (ai : t) : option Cell * t :=
  (List.find (λ safe_cell, bool_decide (safe_cell ∉ moves_made ai)) order, ai).

(** The outcome of a call that can raise: a value, the [ValueError] of
    [random.randrange], or [OutOfFuel] where a loop of the model is cut. *)
Inductive outcome (A : Type) : Type :=
  | Return (a : A)
  | ValueError
  | OutOfFuel.
Arguments Return {A} a.
Arguments ValueError {A}.
Arguments OutOfFuel {A}.

#[global] Instance outcome_bind : MBind outcome := λ A B f m,
  match m with
  | Return a => f a
  | ValueError => ValueError
  | OutOfFuel => OutOfFuel
  end.

(** [random.randrange(n)]: raises [ValueError] on an empty range; otherwise
    some [0 <= x < n], here taken from the [p]-th value of the random
    source [rng]. *)
Definition randrange (n : Z) (rng : nat → Z) (p : nat) : outcome Z :=
  if bool_decide (0 < n)%Z then Return (rng p `mod` n)%Z else ValueError.

(** [cell in self.mines or cell in self.moves_made]. *)
Definition excluded (ai : t) (cell : Cell) : bool :=
  bool_decide (cell ∈ mines ai) || bool_decide (cell ∈ moves_made ai).

(** Lines 268-274: the [while] loop. [p] counts the random draws made so
    far. The loop leaves by its condition or by [break]; [fuel] bounds its
    iterations. *)
Fixpoint sample_loop (fuel : nat) (rng : nat → Z) (ai : t)
    (cell : Cell) (counter : Z) (p : nat) : outcome (Cell * Z) :=
  if excluded ai cell then
    match fuel with
    | O => OutOfFuel
    | S fuel =>
        row ← randrange (height ai) rng p;
        col ← randrange (width ai) rng (S p);
        let cell := (row, col) in
        let counter := (counter + 1)%Z in
        if bool_decide (10 ≤ counter)%Z then Return (cell, counter)
        else sample_loop fuel rng ai cell counter (S (S p))
    end
  else Return (cell, counter).

(** Lines 279-283: the cells of the board in row-major order. *)
Definition board_cells (ai : t) : list Cell :=
  row ← seqZ 0 (height ai); col ← seqZ 0 (width ai); [(row, col)].

(** [make_random_move(self)], with the random source [rng]. *)
Definition make_random_move (rng : nat → Z) (ai : t) : outcome (option Cell) :=
  row ← randrange (height ai) rng 0;
  col ← randrange (width ai) rng 1;
  '(cell, counter) ← sample_loop 10 rng ai (row, col) 0 2;
  if bool_decide (counter < 10)%Z then Return (Some cell)
  else Return (List.find (λ cell, negb (excluded ai cell)) (board_cells ai)).

End MinesweeperAI.

(** ** class Minesweeper: the environment *)

Module Minesweeper.

(** The board: [self.board[i][j]] is [True] exactly for the cells of
    [self.mines] ([__init__] sets both together). *)
Record t : Type := mk { height : Z; width : Z; mines : gset Cell }.

(** [is_mine(self, cell)]: [self.board[i][j]]. *)
Definition is_mine (g : t) (cell : Cell) : bool := bool_decide (cell ∈ mines g).

(** The cells [(i, j)] of the two nested [range] loops of [nearby_mines]. *)
Definition block (cell : Cell) : list Cell :=
  i ← MinesweeperAI.range3 cell.1; j ← MinesweeperAI.range3 cell.2; [(i, j)].

(** [nearby_mines(self, cell)]: the cell itself is skipped, and [count] goes
    up by one for every other cell of the block that is inside the board and
    holds a mine. *)
Definition nearby_mines (g : t) (cell : Cell) : Z :=
  Z.of_nat (length (List.filter
    (λ d, negb (bool_decide (d = cell))
          && (MinesweeperAI.in_range d.1 (height g)
              && MinesweeperAI.in_range d.2 (width g))
          && is_mine g d)
    (block cell))).

End Minesweeper.

(** ** class Minesweeper: the object

    [Minesweeper.t] above keeps of a game what the agent's observations
    depend on. The module below has the object as [__init__] builds it, with
    the board as a list of rows, and the methods as they read it. *)

Module Game.

Inductive exn : Type := ValueError | IndexError | OutOfFuel.

(** The result of a call: a value, or an exception ([OutOfFuel] where a
    loop of the model is cut). *)
Inductive result (A : Type) : Type :=
  | Ok (a : A)
  | Raise (e : exn).
Arguments Ok {A} a.
Arguments Raise {A} e.

#[global] Instance result_bind : MBind result := λ A B f m,
  match m with
  | Ok a => f a
  | Raise e => Raise e
  end.

(** [random.randrange(n)], as in [MinesweeperAI.randrange]. *)
Definition randrange (n : Z) (rng : nat → Z) (p : nat) : result Z :=
  match MinesweeperAI.randrange n rng p with
  | MinesweeperAI.Return x => Ok x
  | MinesweeperAI.ValueError => Raise ValueError
  | MinesweeperAI.OutOfFuel => Raise OutOfFuel
  end.

(** The position [l[i]] stands for: a negative index counts from the end,
    an index out of range raises [IndexError]. *)
Definition index {A} (l : list A) (i : Z) : result nat :=
  let n := Z.of_nat (length l) in
  let k := if bool_decide (i < 0)%Z then (i + n)%Z else i in
  if bool_decide (0 ≤ k < n)%Z then Ok (Z.to_nat k) else Raise IndexError.

(** [l[i]]. *)
Definition getitem {A} (l : list A) (i : Z) : result A :=
  k ← index l i;
  match l !! k with Some x => Ok x | None => Raise IndexError end.

(** [l[i] = x]. *)
Definition setitem {A} (l : list A) (i : Z) (x : A) : result (list A) :=
  k ← index l i; Ok (<[k := x]> l).

Record t : Type := mk {
  height : Z;
  width : Z;
  mines : gset Cell;
  board : list (list bool);
  mines_found : gset Cell
}.

(** Lines 18-23: [height] rows of [width] times [False], each row a list of
    its own. *)
Definition empty_board (h w : Z) : list (list bool) :=
  replicate (Z.to_nat h) (replicate (Z.to_nat w) false).

(** Lines 26-31: the loop that places the mines, on the set [self.mines] and
    the board. [p] counts the random draws made so far. *)
Fixpoint place_mines (fuel : nat) (rng : nat → Z) (p : nat)
    (h w target : Z) (ms : gset Cell) (b : list (list bool))
    : result (gset Cell * list (list bool)) :=
  if bool_decide (Z.of_nat (size ms) ≠ target) then
    match fuel with
    | O => Raise OutOfFuel
    | S fuel =>
        i ← randrange h rng p;
        j ← randrange w rng (S p);
        row ← getitem b i;
        cell ← getitem row j;
        if negb cell then
          row' ← setitem row j true;
          b' ← setitem b i row';
          place_mines fuel rng (S (S p)) h w target ({[(i, j)]} ∪ ms) b'
        else place_mines fuel rng (S (S p)) h w target ms b
    end
  else Ok (ms, b).

(** [__init__(self, height, width, mines)]. *)
Definition init (fuel : nat) (rng : nat → Z) (h w target : Z) : result t :=
  '(ms, b) ← place_mines fuel rng 0 h w target ∅ (empty_board h w);
  Ok (mk h w ms b ∅).

(** [is_mine(self, cell)]: [self.board[i][j]]. *)
Definition is_mine (g : t) (cell : Cell) : result bool :=
  row ← getitem (board g) cell.1; getitem row cell.2.

(** One round of the loops of [nearby_mines], for the cell [(i, j)] of the
    block. *)
Definition count_cell (g : t) (cell : Cell) (count : Z) (d : Cell) : result Z :=
  if bool_decide (d = cell) then Ok count
  else if MinesweeperAI.in_range d.1 (height g)
          && MinesweeperAI.in_range d.2 (width g)
  then
    row ← getitem (board g) d.1;
    is_mine ← getitem row d.2;
    if is_mine : bool then Ok (count + 1)%Z else Ok count
  else Ok count.

(** [nearby_mines(self, cell)]. *)
Definition nearby_mines (g : t) (cell : Cell) : result Z :=
  foldl (λ acc d, count ← acc; count_cell g cell count d) (Ok 0%Z)
        (Minesweeper.block cell).

(** [won(self)]. *)
Definition won (g : t) : bool := bool_decide (mines_found g = mines g).

(** What the agent's observations depend on. *)
Definition env (g : t) : Minesweeper.t :=
  Minesweeper.mk (height g) (width g) (mines g).

End Game.

(** The board of [g] is [height] rows of [width] cells, [True] exactly at
    the cells of [mines], which are all on the board. *)
Definition board_represents (g : Game.t) : Prop :=
  length (Game.board g) = Z.to_nat (Game.height g)
  ∧ (∀ i row, Game.board g !! i = Some row →
       length row = Z.to_nat (Game.width g))
  ∧ (∀ i j row b, Game.board g !! i = Some row → row !! j = Some b →
       (b = true ↔ (Z.of_nat i, Z.of_nat j) ∈ Game.mines g))
  ∧ (∀ c, c ∈ Game.mines g →
       (0 ≤ c.1 < Game.height g)%Z ∧ (0 ≤ c.2 < Game.width g)%Z).

(** ** Sequences of observations *)

(** An observation is a call [add_knowledge(cell, count)]. *)
Definition observation : Type := Cell * Z.

(** The calls of [obs] made one after the other on the agent [ai]. *)
Fixpoint add_knowledge_all (obs : list observation) (ai : MinesweeperAI.t)
    : option MinesweeperAI.t :=
  match obs with
  | [] => Some ai
  | (cell, count) :: obs =>
      ai ← MinesweeperAI.add_knowledge cell count ai; add_knowledge_all obs ai
  end.

(** ** The states a call passes through

    The functions above give the state a call ends in. The ones below list
    the states the agent is in on the way: one after every statement of the
    agent's methods and after every call of a [Sentence] method, in the
    order they happen. *)

(** The stores after each [sentence.m(cell)] of
    [for sentence in self.knowledge: sentence.m(cell)]. *)
Fixpoint for_each_sentence_states (m : Sentence → Sentence)
    (k : list MinesweeperAI.ref) (st : list Sentence) : list (list Sentence) :=
  match k with
  | [] => []
  | r :: k => alter m r st :: for_each_sentence_states m k (alter m r st)
  end.

Definition mark_safe_states (c : Cell) (ai : MinesweeperAI.t)
    : list MinesweeperAI.t :=
  let ai0 := MinesweeperAI.mk (MinesweeperAI.height ai) (MinesweeperAI.width ai)
               (MinesweeperAI.moves_made ai) (MinesweeperAI.mines ai)
               ({[c]} ∪ MinesweeperAI.safes ai)
               (MinesweeperAI.knowledge ai) (MinesweeperAI.store ai) in
  ai0 :: (MinesweeperAI.set_store ai0
            <$> for_each_sentence_states (Sentence.mark_safe c)
                  (MinesweeperAI.knowledge ai) (MinesweeperAI.store ai)).

Definition mark_mine_states (c : Cell) (ai : MinesweeperAI.t)
    : list MinesweeperAI.t :=
  let ai0 := MinesweeperAI.mk (MinesweeperAI.height ai) (MinesweeperAI.width ai)
               (MinesweeperAI.moves_made ai)
               ({[c]} ∪ MinesweeperAI.mines ai) (MinesweeperAI.safes ai)
               (MinesweeperAI.knowledge ai) (MinesweeperAI.store ai) in
  ai0 :: (MinesweeperAI.set_store ai0
            <$> for_each_sentence_states (Sentence.mark_mine c)
                  (MinesweeperAI.knowledge ai) (MinesweeperAI.store ai)).

(** [for cell in cells: self.mark(cell)]. *)
Fixpoint marks_states (mark : Cell → MinesweeperAI.t → MinesweeperAI.t)
    (states : Cell → MinesweeperAI.t → list MinesweeperAI.t)
    (l : list Cell) (ai : MinesweeperAI.t) : list MinesweeperAI.t :=
  match l with
  | [] => []
  | c :: l => states c ai ++ marks_states mark states l (mark c ai)
  end.

Fixpoint subset_loop_states (fuel : nat) (r : MinesweeperAI.ref) (i : nat)
    (ai : MinesweeperAI.t) : list MinesweeperAI.t :=
  match fuel with
  | O => []
  | S fuel =>
      match MinesweeperAI.knowledge ai !! i with
      | None => []
      | Some o =>
          match MinesweeperAI.subset_step r o ai with
          | Some ai => ai :: subset_loop_states fuel r (S i) ai
          | None => []
          end
      end
  end.

Definition infer_step_states (r : MinesweeperAI.ref) (ai : MinesweeperAI.t)
    : list MinesweeperAI.t :=
  match MinesweeperAI.store ai !! r with
  | None => []
  | Some sentence =>
      let sentence_safes := elements (Sentence.known_safes sentence).1 in
      let sentence_mines := elements (Sentence.known_mines sentence).1 in
      let ai1 := foldl (λ ai cell, MinesweeperAI.mark_safe cell ai) ai
                   sentence_safes in
      let ai2 := foldl (λ ai cell, MinesweeperAI.mark_mine cell ai) ai1
                   sentence_mines in
      let ai3 := MinesweeperAI.drop_empty ai2 in
      marks_states MinesweeperAI.mark_safe mark_safe_states sentence_safes ai
      ++ marks_states MinesweeperAI.mark_mine mark_mine_states sentence_mines ai1
      ++ ai3 :: subset_loop_states (MinesweeperAI.subset_fuel ai3) r 0 ai3
  end.

Fixpoint infer_loop_states (l0 : list MinesweeperAI.ref) (ai : MinesweeperAI.t)
    : list MinesweeperAI.t :=
  match l0 with
  | [] => []
  | r :: l0 =>
      infer_step_states r ai
      ++ match MinesweeperAI.infer_step r ai with
         | Some ai => infer_loop_states l0 ai
         | None => []
         end
  end.

Definition note_move_states (cell : Cell) (ai : MinesweeperAI.t)
    : list MinesweeperAI.t :=
  let ai0 := MinesweeperAI.mk (MinesweeperAI.height ai) (MinesweeperAI.width ai)
               ({[cell]} ∪ MinesweeperAI.moves_made ai)
               (MinesweeperAI.mines ai) (MinesweeperAI.safes ai)
               (MinesweeperAI.knowledge ai) (MinesweeperAI.store ai) in
  ai0 :: (if bool_decide (cell ∉ MinesweeperAI.safes ai0)
          then mark_safe_states cell ai0 else []).

Definition add_knowledge_states (cell : Cell) (count : Z)
    (ai : MinesweeperAI.t) : list MinesweeperAI.t :=
  let ai1 := MinesweeperAI.note_move cell ai in
  let ai2 := MinesweeperAI.add_sentence cell count ai1 in
  note_move_states cell ai
  ++ ai2 :: infer_loop_states (MinesweeperAI.knowledge ai2) ai2.

Fixpoint add_knowledge_all_states (obs : list observation)
    (ai : MinesweeperAI.t) : list MinesweeperAI.t :=
  match obs with
  | [] => []
  | (cell, count) :: obs =>
      add_knowledge_states cell count ai
      ++ match MinesweeperAI.add_knowledge cell count ai with
         | Some ai => add_knowledge_all_states obs ai
         | None => []
         end
  end.

(** The list of states [l], entered in the state [a], ends in the state [b]. *)
Definition ends_at {A} (a : A) (l : list A) (b : A) : Prop :=
  last (a :: l) = Some b.

(** Every sentence object of the store has a count between zero and the
    number of its cells. *)
Definition counts_bounded (ai : MinesweeperAI.t) : Prop :=
  ∀ r s, MinesweeperAI.store ai !! r = Some s →
    (0 ≤ Sentence.count s ≤ Z.of_nat (size (Sentence.cells s)))%Z.

(** A cell of the board: [0 <= row < height] and [0 <= col < width]. *)
Definition in_bounds (h w : Z) (cell : Cell) : Prop :=
  (0 ≤ cell.1 < h)%Z ∧ (0 ≤ cell.2 < w)%Z.

(** An observation that the game [g] can give: the cell is on the board, is
    not a mine, and the count is the one [nearby_mines] returns. *)
Definition consistent (g : Minesweeper.t) (o : observation) : Prop :=
  in_bounds (Minesweeper.height g) (Minesweeper.width g) o.1
  ∧ Minesweeper.is_mine g o.1 = false
  ∧ o.2 = Minesweeper.nearby_mines g o.1.

(** ** The properties to be checked *)

(** The sentence the reference [r] of the knowledge base denotes. *)
Definition kb_sentence (ai : MinesweeperAI.t) (r : MinesweeperAI.ref) (s : Sentence) : Prop :=
  r ∈ MinesweeperAI.knowledge ai ∧ MinesweeperAI.store ai !! r = Some s.

(** The propagation fixpoint: no sentence yields a cell that is not marked
    yet, no sentence is empty, and the difference of every two distinct
    sentences, one's cells inside the other's, is in the base. *)
Definition propagation_fixpoint (ai : MinesweeperAI.t) : Prop :=
  (∀ r s, kb_sentence ai r s →
     (Sentence.known_safes s).1 ⊆ MinesweeperAI.safes ai
     ∧ (Sentence.known_mines s).1 ⊆ MinesweeperAI.mines ai)
  ∧ (∀ r s, kb_sentence ai r s → Sentence.cells s ≠ ∅)
  ∧ (∀ ra rb A B, kb_sentence ai ra A → kb_sentence ai rb B →
     A ≠ B → Sentence.cells B ⊆ Sentence.cells A →
     MinesweeperAI.in_knowledge
       (Sentence.init (Sentence.cells A ∖ Sentence.cells B)
                      (Sentence.count A - Sentence.count B)) ai = true).

(** Every reference of the knowledge base is to an object of the store. *)
Definition well_formed (ai : MinesweeperAI.t) : Prop :=
  ∀ r, r ∈ MinesweeperAI.knowledge ai → r < length (MinesweeperAI.store ai).

(** A sentence that is true of the board whose mines are [M]: its count is
    the number of its cells that hold a mine. *)
Definition true_sentence (M : gset Cell) (s : Sentence) : Prop :=
  Sentence.count s = Z.of_nat (size (Sentence.cells s ∩ M)).

(** Every sentence object of the store is true of the board. *)
Definition all_true (M : gset Cell) (ai : MinesweeperAI.t) : Prop :=
  ∀ r s, MinesweeperAI.store ai !! r = Some s → true_sentence M s.

(** What the agent knows is true of the board whose mines are [M], and
    every mark has reached every sentence. *)
Record sound (M : gset Cell) (ai : MinesweeperAI.t) : Prop := {
  sound_refs : well_formed ai;
  sound_true : ∀ r s, MinesweeperAI.store ai !! r = Some s → true_sentence M s;
  sound_dropped : ∀ r s, MinesweeperAI.store ai !! r = Some s →
    r ∉ MinesweeperAI.knowledge ai → Sentence.cells s = ∅;
  sound_resolved : ∀ r s, MinesweeperAI.store ai !! r = Some s →
    Sentence.cells s ## MinesweeperAI.safes ai ∪ MinesweeperAI.mines ai;
  sound_safes : MinesweeperAI.safes ai ## M;
  sound_mines : MinesweeperAI.mines ai ⊆ M
}.

(** The sentence subset-resolution derives from [A] and [B]. *)
Definition candidate (A B : Sentence) : Sentence :=
  Sentence.init (Sentence.cells A ∖ Sentence.cells B)
                (Sentence.count A - Sentence.count B).

(** The test of line 234, and the test of lines 234 and 239 together. *)
Definition resolves (A B : Sentence) : bool :=
  negb (Sentence.eqb A B)
  && bool_decide (Sentence.cells B ⊆ Sentence.cells A).

Definition appends (A B : Sentence) (ai : MinesweeperAI.t) : bool :=
  resolves A B && negb (MinesweeperAI.in_knowledge (candidate A B) ai).

(** Subset-resolution in the state [ai], for any two sentence objects [r] and
    [o]: the body of the inner loop (lines 234-240) returns, and either it
    appends the difference of the two sentences, which are then distinct with
    the cells of the second among those of the first, the difference not in
    the base yet and with at least one cell, or it leaves the state as it is,
    and then one of the three tests of the code fails. *)
Definition appends_new_nonempty (ai : MinesweeperAI.t) : Prop :=
  ∀ r o A B,
    MinesweeperAI.store ai !! r = Some A →
    MinesweeperAI.store ai !! o = Some B →
    ∃ ai',
      MinesweeperAI.subset_step r o ai = Some ai'
      ∧ (ai' = MinesweeperAI.append (candidate A B) ai
           ∧ A ≠ B ∧ Sentence.cells B ⊆ Sentence.cells A
           ∧ MinesweeperAI.in_knowledge (candidate A B) ai = false
           ∧ Sentence.cells (candidate A B) ≠ ∅
         ∨ ai' = ai
           ∧ ¬ (A ≠ B ∧ Sentence.cells B ⊆ Sentence.cells A
                ∧ MinesweeperAI.in_knowledge (candidate A B) ai = false)).

(** The agent plays the game [g]: same board size, and what it knows is
    true of the mines of [g]. *)
Definition agrees (g : Minesweeper.t) (ai : MinesweeperAI.t) : Prop :=
  sound (Minesweeper.mines g) ai
  ∧ MinesweeperAI.height ai = Minesweeper.height g
  ∧ MinesweeperAI.width ai = Minesweeper.width g.

(** The [j]-th cell [make_random_move] draws from the random source. *)
Definition sample (rng : nat → Z) (ai : MinesweeperAI.t) (j : nat) : Cell :=
  ((rng (2 * j)%nat `mod` MinesweeperAI.height ai)%Z,
   (rng (S (2 * j))%nat `mod` MinesweeperAI.width ai)%Z).

(** A cell [make_random_move] may return: on the board, not a known mine and
    not played. *)
Definition eligible (ai : MinesweeperAI.t) (cell : Cell) : Prop :=
  in_bounds (MinesweeperAI.height ai) (MinesweeperAI.width ai) cell
  ∧ (cell ∉ MinesweeperAI.mines ai) ∧ (cell ∉ MinesweeperAI.moves_made ai).

(** An agent with one safe cell played and one not. *)
Definition agent_with_safe_move : MinesweeperAI.t :=
  MinesweeperAI.mk 2 2 {[ (0, 0)%Z ]} ∅ {[ (0, 0)%Z; (1, 1)%Z ]} [] [].

(** An agent on a 2x2 board that has played one cell and knows one mine. *)
Definition agent_in_play : MinesweeperAI.t :=
  MinesweeperAI.mk 2 2 {[ (0, 0)%Z ]} {[ (0, 1)%Z ]} {[ (0, 0)%Z ]} [] [].

(** A 2x3 board with one mine, in the corner, and two moves on it. *)
Definition corner_board : Minesweeper.t := Minesweeper.mk 2 3 {[ (0, 0)%Z ]}.

Definition corner_play : list observation :=
  [((0, 1), 1); ((1, 0), 1)]%Z.

(** Two calls for the same cell of a 3x3 board, with different counts. *)
Definition clashing_play : list observation :=
  [((0, 0), 1); ((0, 0), 2)]%Z.

(** A sentence about two cells of the corner board, one of them the mine. *)
Definition corner_sentence : Sentence :=
  Sentence.mk {[ (0, 0)%Z; (0, 1)%Z ]} 1.

(** An agent that holds [corner_sentence] and a sentence on the mine alone. *)
Definition corner_agent : MinesweeperAI.t :=
  MinesweeperAI.mk 2 3 ∅ ∅ ∅ [0; 1]
    [corner_sentence; Sentence.mk {[ (0, 0)%Z ]} 1].

(** From [ai] to [ai']: the three sets of cells have only gained cells, the
    board is the same, no sentence object is lost and none has gained a
    cell. *)
Definition grows (ai ai' : MinesweeperAI.t) : Prop :=
  MinesweeperAI.safes ai ⊆ MinesweeperAI.safes ai'
  ∧ MinesweeperAI.mines ai ⊆ MinesweeperAI.mines ai'
  ∧ MinesweeperAI.moves_made ai ⊆ MinesweeperAI.moves_made ai'
  ∧ MinesweeperAI.height ai' = MinesweeperAI.height ai
  ∧ MinesweeperAI.width ai' = MinesweeperAI.width ai
  ∧ ∀ r s, MinesweeperAI.store ai !! r = Some s →
      ∃ s', MinesweeperAI.store ai' !! r = Some s'
            ∧ Sentence.cells s' ⊆ Sentence.cells s.

(** Every cell the agent holds, in a set or in a sentence, is a cell of the
    [h] x [w] board, which is the board of the agent. *)
Definition on_board (h w : Z) (ai : MinesweeperAI.t) : Prop :=
  MinesweeperAI.height ai = h ∧ MinesweeperAI.width ai = w
  ∧ (∀ c, c ∈ MinesweeperAI.safes ai ∪ MinesweeperAI.mines ai
             ∪ MinesweeperAI.moves_made ai → in_bounds h w c)
  ∧ (∀ r s c, MinesweeperAI.store ai !! r = Some s →
       c ∈ Sentence.cells s → in_bounds h w c).

(** No sentence of the knowledge base is without cells. *)
Definition no_empty_sentence (ai : MinesweeperAI.t) : Prop :=
  ∀ r s, kb_sentence ai r s → Sentence.cells s ≠ ∅.

(** [d] is one of the up to eight cells around [cell]. *)
Definition adjacent (cell d : Cell) : Prop :=
  d ≠ cell
  ∧ (cell.1 - 1 ≤ d.1 ≤ cell.1 + 1)%Z ∧ (cell.2 - 1 ≤ d.2 ≤ cell.2 + 1)%Z.

#[global] Instance adjacent_dec cell d : Decision (adjacent cell d).
Proof. unfold adjacent. apply _. Defined.

#[global] Instance in_bounds_dec h w cell : Decision (in_bounds h w cell).
Proof. unfold in_bounds. apply _. Defined.

(** The first of the ten cells [make_random_move] may return from its
    draws: the least index whose cell is not excluded. *)
Definition first_free_sample (rng : nat → Z) (ai : MinesweeperAI.t)
    : option nat :=
  List.find (λ j, negb (MinesweeperAI.excluded ai (sample rng ai j))) (seq 0 10).

(** The cells around [cell] that are on the [h] x [w] board. *)
Definition around (h w : Z) (cell : Cell) : gset Cell :=
  list_to_set
    (List.filter (λ d, bool_decide (d ≠ cell ∧ in_bounds h w d))
                 (Minesweeper.block cell)).

(** The game object of [corner_board]. *)
Definition corner_game : Game.t :=
  Game.mk 2 3 {[ (0, 0)%Z ]} [[true; false; false]; [false; false; false]] ∅.

(** What the game [g] tells a player about the cell of [o]: the cell is on
    the board, [is_mine] returns [False] for it, and [nearby_mines] returns
    the count of [o]. *)
Definition told (g : Game.t) (o : observation) : Prop :=
  in_bounds (Game.height g) (Game.width g) o.1
  ∧ Game.is_mine g o.1 = Game.Ok false
  ∧ Game.nearby_mines g o.1 = Game.Ok o.2.

(** The [j]-th cell the loop of [Minesweeper.__init__] draws from the random
    source, on a board with rows and columns. *)
Definition draw (h w : Z) (rng : nat → Z) (j : nat) : Cell :=
  ((rng (2 * j)%nat `mod` h)%Z, (rng (S (2 * j)) `mod` w)%Z).

(** The cells of the first [k] draws. *)
Definition drawn (h w : Z) (rng : nat → Z) (k : nat) : gset Cell :=
  list_to_set (draw h w rng <$> seq 0 k).

(** * Properties *)

(** ** The sentence-level operations *)

Section sentence_properties.
Implicit Types (s : Sentence) (c : Cell).

Lemma mark_mine_elem s c :
  c ∈ Sentence.cells s →
  Sentence.mark_mine c s
  = Sentence.mk (Sentence.cells s ∖ {[c]}) (Sentence.count s - 1).
Proof. intros Hc. unfold Sentence.mark_mine. by rewrite bool_decide_eq_true_2. Qed.

Lemma mark_mine_not_elem s c :
  c ∉ Sentence.cells s → Sentence.mark_mine c s = s.
Proof. intros Hc. unfold Sentence.mark_mine. by rewrite bool_decide_eq_false_2. Qed.

Lemma mark_safe_elem s c :
  c ∈ Sentence.cells s →
  Sentence.mark_safe c s
  = Sentence.mk (Sentence.cells s ∖ {[c]}) (Sentence.count s).
Proof. intros Hc. unfold Sentence.mark_safe. by rewrite bool_decide_eq_true_2. Qed.

Lemma mark_safe_not_elem s c :
  c ∉ Sentence.cells s → Sentence.mark_safe c s = s.
Proof. intros Hc. unfold Sentence.mark_safe. by rewrite bool_decide_eq_false_2. Qed.

Lemma mark_mine_cells s c :
  Sentence.cells (Sentence.mark_mine c s) = Sentence.cells s ∖ {[c]}.
Proof.
  unfold Sentence.mark_mine. case_bool_decide; simpl; [done|set_solver].
Qed.

Lemma mark_safe_cells s c :
  Sentence.cells (Sentence.mark_safe c s) = Sentence.cells s ∖ {[c]}.
Proof.
  unfold Sentence.mark_safe. case_bool_decide; simpl; [done|set_solver].
Qed.

Lemma mark_safe_count s c :
  Sentence.count (Sentence.mark_safe c s) = Sentence.count s.
Proof. unfold Sentence.mark_safe. by case_bool_decide. Qed.

Lemma eqb_eq s1 s2 : Sentence.eqb s1 s2 = true ↔ s1 = s2.
Proof.
  unfold Sentence.eqb. rewrite andb_true_iff, !bool_decide_eq_true.
  destruct s1, s2; simpl. split; [intros [-> ->]; done|by inversion 1].
Qed.

Lemma eqb_refl s : Sentence.eqb s s = true.
Proof. by apply eqb_eq. Qed.

(** C4: [known_mines] returns the cell set exactly when the count equals the
    number of cells, the empty set otherwise, and leaves the sentence as it
    was. *)
Theorem known_mines_spec s :
  Sentence.known_mines s
  = (if bool_decide (Sentence.count s = Z.of_nat (size (Sentence.cells s)))
     then Sentence.cells s else ∅, s)
  ∧ ((Sentence.known_mines s).1 ≠ ∅ →
     Sentence.count s = Z.of_nat (size (Sentence.cells s))
     ∧ (Sentence.known_mines s).1 = Sentence.cells s)
  ∧ Sentence.cells (Sentence.known_mines s).2 = Sentence.cells s
  ∧ Sentence.count (Sentence.known_mines s).2 = Sentence.count s.
Proof.
  unfold Sentence.known_mines. case_bool_decide; simpl; repeat split; done.
Qed.

(** C5: [known_safes] returns the cell set exactly when the count is zero, the
    empty set otherwise, and leaves the sentence as it was. *)
Theorem known_safes_spec s :
  Sentence.known_safes s
  = (if bool_decide (Sentence.count s = 0%Z) then Sentence.cells s else ∅, s)
  ∧ ((Sentence.known_safes s).1 ≠ ∅ →
     Sentence.count s = 0%Z
     ∧ (Sentence.known_safes s).1 = Sentence.cells s)
  ∧ Sentence.cells (Sentence.known_safes s).2 = Sentence.cells s
  ∧ Sentence.count (Sentence.known_safes s).2 = Sentence.count s.
Proof.
  unfold Sentence.known_safes. case_bool_decide; simpl; repeat split; done.
Qed.

(** C6: [mark_mine] removes a member cell and decrements the count, [mark_safe]
    removes a member cell and keeps the count, both leave the sentence alone
    when the cell is not a member; both are idempotent. *)
Theorem sentence_mark_spec s c :
  (c ∈ Sentence.cells s →
     Sentence.cells (Sentence.mark_mine c s) = Sentence.cells s ∖ {[c]}
     ∧ Sentence.count (Sentence.mark_mine c s) = (Sentence.count s - 1)%Z)
  ∧ (c ∉ Sentence.cells s → Sentence.mark_mine c s = s)
  ∧ (c ∈ Sentence.cells s →
     Sentence.cells (Sentence.mark_safe c s) = Sentence.cells s ∖ {[c]}
     ∧ Sentence.count (Sentence.mark_safe c s) = Sentence.count s)
  ∧ (c ∉ Sentence.cells s → Sentence.mark_safe c s = s)
  ∧ Sentence.mark_mine c (Sentence.mark_mine c s) = Sentence.mark_mine c s
  ∧ Sentence.mark_safe c (Sentence.mark_safe c s) = Sentence.mark_safe c s.
Proof.
  split_and!.
  - intros Hc. by rewrite mark_mine_elem.
  - apply mark_mine_not_elem.
  - intros Hc. by rewrite mark_safe_elem.
  - apply mark_safe_not_elem.
  - apply mark_mine_not_elem. rewrite mark_mine_cells. set_solver.
  - apply mark_safe_not_elem. rewrite mark_safe_cells. set_solver.
Qed.

End sentence_properties.

(** ** The agent-level mark operations and the move queries *)

Section agent_queries.
Import MinesweeperAI.
Implicit Types (ai : MinesweeperAI.t) (c cell : Cell).

(** C10: the agent-level marks add to their own certainty set without looking
    at the other one, so marking a cell safe and then a mine leaves it in both
    sets; neither mark touches [moves_made]. *)
Theorem agent_marks_do_not_enforce_disjointness ai c :
  mines (mark_mine c ai) = {[c]} ∪ mines ai
  ∧ safes (mark_mine c ai) = safes ai
  ∧ safes (mark_safe c ai) = {[c]} ∪ safes ai
  ∧ mines (mark_safe c ai) = mines ai
  ∧ c ∈ safes (mark_mine c (mark_safe c ai)) ∩ mines (mark_mine c (mark_safe c ai))
  ∧ moves_made (mark_mine c ai) = moves_made ai
  ∧ moves_made (mark_safe c ai) = moves_made ai.
Proof. split_and!; try done. simpl. set_solver. Qed.

Lemma find_first_eligible {A} (p : A → bool) (l : list A) :
  match List.find p l with
  | Some x => x ∈ l ∧ p x = true
  | None => ∀ x, x ∈ l → p x = false
  end.
Proof.
  destruct (List.find p l) as [x|] eqn:Hf.
  - apply find_some in Hf as [Hin Hp]. by rewrite list_elem_of_In.
  - intros x Hx. apply (find_none _ _ Hf). by rewrite <- list_elem_of_In.
Qed.

(** C8: [make_safe_move] returns a cell of [safes] that is not in
    [moves_made] when there is one, [None] when there is none, whatever the
    order the set is iterated in; the agent is left as it was. *)
Theorem make_safe_move_spec order ai :
  order ≡ₚ elements (safes ai) →
  ((∃ c, c ∈ safes ai ∧ c ∉ moves_made ai) →
   ∃ c, (make_safe_move order ai).1 = Some c ∧ c ∈ safes ai ∧ c ∉ moves_made ai)
  ∧ ((∀ c, c ∈ safes ai → c ∈ moves_made ai) →
     (make_safe_move order ai).1 = None)
  ∧ (make_safe_move order ai).2 = ai.
Proof.
  intros Hord.
  assert (Hin : ∀ c, c ∈ order ↔ c ∈ safes ai).
  { intros c. by rewrite Hord, elem_of_elements. }
  unfold make_safe_move; simpl.
  pose proof (find_first_eligible
    (λ safe_cell, bool_decide (safe_cell ∉ moves_made ai)) order) as Hf.
  destruct (List.find _ order) as [x|]; split_and!; try done.
  - intros _. exists x. destruct Hf as [Hx Hp].
    apply bool_decide_eq_true in Hp. by rewrite <- Hin.
  - intros Hall. destruct Hf as [Hx Hp].
    apply bool_decide_eq_true in Hp. apply Hin, Hall in Hx. done.
  - intros (c & Hc & Hnot). apply Hin, Hf in Hc.
    apply bool_decide_eq_false in Hc. done.
Qed.

Lemma make_safe_move_spec_witness :
  (make_safe_move (elements (safes agent_with_safe_move))
     agent_with_safe_move).2 = agent_with_safe_move.
Proof.
  apply (make_safe_move_spec (elements (safes agent_with_safe_move))
           agent_with_safe_move).
  reflexivity.
Defined.

End agent_queries.

(** ** [make_random_move] *)

Section random_move.
Import MinesweeperAI.
Implicit Types (ai : MinesweeperAI.t) (cell : Cell) (rng : nat → Z).

Lemma excluded_false ai cell :
  excluded ai cell = false ↔ (cell ∉ mines ai) ∧ (cell ∉ moves_made ai).
Proof.
  unfold excluded. rewrite orb_false_iff, !bool_decide_eq_false. done.
Qed.

Lemma elem_of_board_cells ai cell :
  cell ∈ board_cells ai ↔ in_bounds (height ai) (width ai) cell.
Proof.
  unfold board_cells, in_bounds. destruct cell as [row col]; simpl.
  rewrite list_elem_of_bind. split.
  - intros (r & Hc & Hr). apply list_elem_of_bind in Hc as (c & Hc & Hcol).
    apply list_elem_of_singleton in Hc. inversion Hc; subst.
    apply elem_of_seqZ in Hr, Hcol. lia.
  - intros [Hr Hc]. exists row. split; [|apply elem_of_seqZ; lia].
    apply list_elem_of_bind. exists col.
    split; [by apply list_elem_of_singleton|apply elem_of_seqZ; lia].
Qed.

Lemma sample_in_bounds rng ai j :
  (0 < height ai)%Z → (0 < width ai)%Z →
  in_bounds (height ai) (width ai) (sample rng ai j).
Proof.
  intros Hh Hw. unfold in_bounds, sample; simpl.
  split; apply Z.mod_pos_bound; lia.
Qed.

(** The sampling loop, entered with the [j]-th sample after [j] rounds: it
    returns the first sample from the [j]-th on that is not excluded, if there
    is one among the first ten, and gives up with the counter at 10
    otherwise. *)
Lemma sample_loop_spec rng ai (fuel j : nat) :
  (0 < height ai)%Z → (0 < width ai)%Z →
  fuel + j = 10 → j < 10 →
  ∃ k counter,
    sample_loop fuel rng ai (sample rng ai j) (Z.of_nat j) (2 * S j)
    = Return (sample rng ai k, counter)
    ∧ ((counter < 10)%Z ∧ excluded ai (sample rng ai k) = false
       ∨ counter = 10%Z).
Proof.
  intros Hh Hw. revert j. induction fuel as [|fuel IH]; intros j Hj Hlt; [lia|].
  simpl sample_loop. destruct (excluded ai (sample rng ai j)) eqn:He.
  - unfold randrange.
    rewrite (bool_decide_eq_true_2 (0 < height ai)%Z),
      (bool_decide_eq_true_2 (0 < width ai)%Z) by done.
    cbn [mbind outcome_bind]. case_bool_decide as Hc.
    + exists (S j), (Z.of_nat j + 1)%Z. split; [|right; lia].
      unfold sample. do 3 f_equal; f_equal; lia.
    + destruct (IH (S j)) as (k & counter & Hl & Hk); [lia..|].
      exists k, counter. split; [|done]. rewrite <- Hl.
      unfold sample at 1. replace (Z.of_nat j + 1)%Z with (Z.of_nat (S j)) by lia.
      f_equal. f_equal; f_equal; f_equal; lia.
  - exists j, (Z.of_nat j). split; [done|]. left. split; [lia|done].
Qed.

(** C7, as the code has it: on a board with at least one row and one column,
    [make_random_move] returns, whatever the random source gives; it returns
    [None] when every cell of the board is a known mine or played, and a cell
    of the board that is neither when there is one: one of the cells drawn, or
    the first one of the row-major scan. *)
Theorem make_random_move_spec rng ai :
  (0 < height ai)%Z → (0 < width ai)%Z →
  ∃ move,
    make_random_move rng ai = Return move
    ∧ ((∀ cell, in_bounds (height ai) (width ai) cell →
          cell ∈ mines ai ∪ moves_made ai) → move = None)
    ∧ ((∃ cell, eligible ai cell) → ∃ cell, move = Some cell ∧ eligible ai cell)
    ∧ ((∃ k, move = Some (sample rng ai k))
       ∨ move = List.find (λ cell, negb (excluded ai cell)) (board_cells ai)).
Proof.
  intros Hh Hw. unfold make_random_move, randrange.
  rewrite (bool_decide_eq_true_2 (0 < height ai)%Z),
    (bool_decide_eq_true_2 (0 < width ai)%Z) by done.
  cbn [mbind outcome_bind].
  destruct (sample_loop_spec rng ai 10 0 Hh Hw) as (k & counter & Hl & Hk);
    [lia..|].
  change (sample rng ai 0) with (rng 0%nat `mod` height ai, rng 1%nat `mod` width ai)%Z in Hl.
  change (2 * 1) with 2 in Hl. change (Z.of_nat 0) with 0%Z in Hl.
  rewrite Hl. clear Hl. cbn [mbind outcome_bind].
  pose proof (find_first_eligible (λ cell, negb (excluded ai cell))
                (board_cells ai)) as Hf.
  destruct Hk as [[Hc He]| ->].
  - rewrite bool_decide_eq_true_2 by done.
    exists (Some (sample rng ai k)). apply excluded_false in He as He'.
    split_and!; [done| | |left; by exists k].
    + intros Hall. specialize (Hall _ (sample_in_bounds rng ai k Hh Hw)).
      set_solver.
    + intros _. exists (sample rng ai k). split; [done|].
      split; [by apply sample_in_bounds|done].
  - rewrite bool_decide_eq_false_2 by lia.
    eexists. split; [done|].
    destruct (List.find _ (board_cells ai)) as [x|]; split_and!.
    + intros Hall. destruct Hf as [Hx Hp]. apply elem_of_board_cells, Hall in Hx.
      apply negb_true_iff, excluded_false in Hp. set_solver.
    + intros _. exists x. split; [done|]. destruct Hf as [Hx Hp].
      apply elem_of_board_cells in Hx. apply negb_true_iff, excluded_false in Hp.
      by split.
    + by right.
    + done.
    + intros (cell & Hb & Hm). apply elem_of_board_cells, Hf in Hb.
      apply negb_false_iff in Hb. unfold excluded in Hb.
      apply orb_true_iff in Hb. rewrite !bool_decide_eq_true in Hb. tauto.
    + by right.
Qed.

Lemma make_random_move_spec_witness :
  ∃ move,
    make_random_move (λ p, Z.of_nat p) agent_in_play = Return move
    ∧ ((∀ cell, in_bounds (height agent_in_play) (width agent_in_play) cell →
          cell ∈ mines agent_in_play ∪ moves_made agent_in_play) →
       move = None)
    ∧ ((∃ cell, eligible agent_in_play cell) →
       ∃ cell, move = Some cell ∧ eligible agent_in_play cell)
    ∧ ((∃ k, move = Some (sample (λ p, Z.of_nat p) agent_in_play k))
       ∨ move = List.find (λ cell, negb (excluded agent_in_play cell))
                  (board_cells agent_in_play)).
Proof.
  apply (make_random_move_spec (λ p, Z.of_nat p) agent_in_play); simpl; lia.
Defined.

(** Without a row or without a column, the call raises [ValueError]. *)
Lemma make_random_move_raises rng ai :
  (height ai ≤ 0)%Z ∨ (width ai ≤ 0)%Z →
  make_random_move rng ai = ValueError.
Proof.
  intros Hdim. unfold make_random_move, randrange.
  destruct (decide (0 < height ai)%Z) as [Hh|Hh].
  - rewrite (bool_decide_eq_true_2 (0 < height ai)%Z) by done.
    rewrite (bool_decide_eq_false_2 (0 < width ai)%Z) by lia. done.
  - by rewrite (bool_decide_eq_false_2 (0 < height ai)%Z) by done.
Qed.

(** C7 fails on a board with no rows: every cell of the board (there is none)
    is excluded, and the call raises [ValueError] at its first
    [random.randrange(self.height)] where the claim has it return [None]. *)
Lemma make_random_move_raises_on_empty_board :
  (∀ cell, in_bounds (height (init 0 3)) (width (init 0 3)) cell →
     cell ∈ mines (init 0 3) ∪ moves_made (init 0 3))
  ∧ make_random_move (λ _, 0%Z) (init 0 3) = ValueError
  ∧ make_random_move (λ _, 0%Z) (init 0 3) ≠ Return None.
Proof.
  split_and!; [|reflexivity|discriminate].
  intros cell [Hrow _]. simpl in Hrow. lia.
Qed.

End random_move.

(** ** The store of sentence objects *)

Section store.
Import MinesweeperAI.
Implicit Types (ai : MinesweeperAI.t) (s : Sentence) (c cell : Cell)
  (st : list Sentence) (k : list ref) (r : ref) (M : gset Cell).

Lemma for_each_sentence_length m k st :
  length (for_each_sentence m k st) = length st.
Proof.
  revert st. induction k as [|a k IH]; intros st; [done|].
  unfold for_each_sentence in *. simpl. by rewrite IH, length_alter.
Qed.

Lemma for_each_sentence_lookup m k st r :
  (∀ s, m (m s) = m s) →
  for_each_sentence m k st !! r
  = if decide (r ∈ k) then m <$> st !! r else st !! r.
Proof.
  intros Hm. revert st. induction k as [|a k IH]; intros st.
  - unfold for_each_sentence. by simpl.
  - change (for_each_sentence m (a :: k) st)
      with (for_each_sentence m k (alter m a st)).
    rewrite IH. destruct (decide (r = a)) as [->|Hne].
    + rewrite list_lookup_alter_eq. rewrite (decide_True (P := a ∈ a :: k));
        [|by left].
      case_decide; [|done]. destruct (st !! a); simpl; by rewrite ?Hm.
    + rewrite list_lookup_alter_ne by done.
      destruct (decide (r ∈ k)) as [Hin|Hnin].
      * rewrite decide_True; [done|by right].
      * rewrite decide_False; [done|]. rewrite elem_of_cons. tauto.
Qed.

Lemma for_each_sentence_lookup_Some m k st r s' :
  (∀ s, m (m s) = m s) →
  for_each_sentence m k st !! r = Some s' →
  ∃ s, st !! r = Some s ∧ (r ∈ k ∧ s' = m s ∨ (r ∉ k) ∧ s' = s).
Proof.
  intros Hm. rewrite for_each_sentence_lookup by done.
  case_decide as Hin.
  - destruct (st !! r) as [s|]; simpl; [|done].
    intros [= <-]. exists s. auto.
  - intros Hs. exists s'. auto.
Qed.

Lemma mark_mine_idemp c s :
  Sentence.mark_mine c (Sentence.mark_mine c s) = Sentence.mark_mine c s.
Proof. apply mark_mine_not_elem. rewrite mark_mine_cells. set_solver. Qed.

Lemma mark_safe_idemp c s :
  Sentence.mark_safe c (Sentence.mark_safe c s) = Sentence.mark_safe c s.
Proof. apply mark_safe_not_elem. rewrite mark_safe_cells. set_solver. Qed.

Lemma true_mark_safe M c s :
  c ∉ M → true_sentence M s → true_sentence M (Sentence.mark_safe c s).
Proof.
  unfold true_sentence. intros Hc Hs.
  rewrite mark_safe_cells, mark_safe_count, Hs.
  do 2 f_equal. set_solver.
Qed.

Lemma true_mark_mine M c s :
  c ∈ M → true_sentence M s → true_sentence M (Sentence.mark_mine c s).
Proof.
  unfold true_sentence, Sentence.mark_mine. intros Hc Hs.
  case_bool_decide as Hin; [|done]. simpl. rewrite Hs.
  replace ((Sentence.cells s ∖ {[c]}) ∩ M)
    with ((Sentence.cells s ∩ M) ∖ {[c]}) by set_solver.
  assert (Hsub : {[c]} ⊆ Sentence.cells s ∩ M) by set_solver.
  rewrite (size_difference (Sentence.cells s ∩ M) {[c]}) by done.
  apply subseteq_size in Hsub. rewrite size_singleton in *. lia.
Qed.

(** A true sentence has between zero and [len(cells)] mines. *)
Lemma true_sentence_bounds M s :
  true_sentence M s →
  (0 ≤ Sentence.count s ≤ Z.of_nat (size (Sentence.cells s)))%Z.
Proof.
  unfold true_sentence. intros ->.
  assert (size (Sentence.cells s ∩ M) ≤ size (Sentence.cells s))
    by (apply subseteq_size; set_solver).
  lia.
Qed.

(** The cells a true sentence yields as safe hold no mine, the cells it
    yields as mines hold one. *)
Lemma true_known_safes M s c :
  true_sentence M s → c ∈ (Sentence.known_safes s).1 → c ∉ M.
Proof.
  unfold true_sentence, Sentence.known_safes. intros Hs.
  case_bool_decide as H0; simpl; [|set_solver].
  intros Hc HM. rewrite H0 in Hs.
  assert (Hsz : size (Sentence.cells s ∩ M) = 0) by lia.
  apply size_empty_inv in Hsz. set_solver.
Qed.

Lemma true_known_mines M s c :
  true_sentence M s → c ∈ (Sentence.known_mines s).1 → c ∈ M.
Proof.
  unfold true_sentence, Sentence.known_mines. intros Hs.
  case_bool_decide as Hn; simpl; [|set_solver].
  intros Hc. rewrite Hs in Hn.
  assert (Heq : Sentence.cells s ∩ M = Sentence.cells s).
  { apply set_subseteq_size_eq; [set_solver|lia]. }
  set_solver.
Qed.

Lemma sound_init M h w : sound M (init h w).
Proof.
  split; unfold well_formed; simpl; try done; set_solver.
Qed.

Lemma sound_mark_safe M c ai :
  c ∉ M → sound M ai → sound M (mark_safe c ai).
Proof.
  intros Hc [Hrefs Htrue Hdrop Hres Hsafes Hmines].
  split; simpl; unfold well_formed; simpl.
  - intros r Hr. rewrite for_each_sentence_length. by apply Hrefs.
  - intros r s' Hs'.
    apply for_each_sentence_lookup_Some in Hs'
      as (s & Hs & [[_ ->]|[_ ->]]); [..|apply mark_safe_idemp]; eauto using true_mark_safe.
  - intros r s' Hs' Hr.
    apply for_each_sentence_lookup_Some in Hs'
      as (s & Hs & [[? ->]|[_ ->]]); [..|apply mark_safe_idemp]; [done|eauto].
  - intros r s' Hs'.
    apply for_each_sentence_lookup_Some in Hs'
      as (s & Hs & [[_ ->]|[Hr ->]]); [..|apply mark_safe_idemp].
    + rewrite mark_safe_cells. specialize (Hres _ _ Hs). set_solver.
    + rewrite (Hdrop _ _ Hs Hr). set_solver.
  - set_solver.
  - done.
Qed.

Lemma sound_mark_mine M c ai :
  c ∈ M → sound M ai → sound M (mark_mine c ai).
Proof.
  intros Hc [Hrefs Htrue Hdrop Hres Hsafes Hmines].
  split; simpl; unfold well_formed; simpl.
  - intros r Hr. rewrite for_each_sentence_length. by apply Hrefs.
  - intros r s' Hs'.
    apply for_each_sentence_lookup_Some in Hs'
      as (s & Hs & [[_ ->]|[_ ->]]); [..|apply mark_mine_idemp]; eauto using true_mark_mine.
  - intros r s' Hs' Hr.
    apply for_each_sentence_lookup_Some in Hs'
      as (s & Hs & [[? ->]|[_ ->]]); [..|apply mark_mine_idemp]; [done|eauto].
  - intros r s' Hs'.
    apply for_each_sentence_lookup_Some in Hs'
      as (s & Hs & [[_ ->]|[Hr ->]]); [..|apply mark_mine_idemp].
    + rewrite mark_mine_cells. specialize (Hres _ _ Hs). set_solver.
    + rewrite (Hdrop _ _ Hs Hr). set_solver.
  - done.
  - set_solver.
Qed.

Lemma marks_safe_knowledge l ai :
  knowledge (foldl (λ ai cell, mark_safe cell ai) ai l) = knowledge ai
  ∧ length (store (foldl (λ ai cell, mark_safe cell ai) ai l)) = length (store ai)
  ∧ height (foldl (λ ai cell, mark_safe cell ai) ai l) = height ai
  ∧ width (foldl (λ ai cell, mark_safe cell ai) ai l) = width ai.
Proof.
  revert ai. induction l as [|c l IH]; intros ai; simpl; [done|].
  destruct (IH (mark_safe c ai)) as (-> & -> & -> & ->). simpl.
  by rewrite for_each_sentence_length.
Qed.

Lemma marks_mine_knowledge l ai :
  knowledge (foldl (λ ai cell, mark_mine cell ai) ai l) = knowledge ai
  ∧ length (store (foldl (λ ai cell, mark_mine cell ai) ai l)) = length (store ai)
  ∧ height (foldl (λ ai cell, mark_mine cell ai) ai l) = height ai
  ∧ width (foldl (λ ai cell, mark_mine cell ai) ai l) = width ai.
Proof.
  revert ai. induction l as [|c l IH]; intros ai; simpl; [done|].
  destruct (IH (mark_mine c ai)) as (-> & -> & -> & ->). simpl.
  by rewrite for_each_sentence_length.
Qed.

Lemma sound_marks_safe M l ai :
  (∀ c, c ∈ l → c ∉ M) → sound M ai →
  sound M (foldl (λ ai cell, mark_safe cell ai) ai l).
Proof.
  revert ai. induction l as [|c l IH]; intros ai Hl Hs; simpl; [done|].
  apply IH; [intros; apply Hl; by right|].
  apply sound_mark_safe; [apply Hl; by left|done].
Qed.

Lemma sound_marks_mine M l ai :
  (∀ c, c ∈ l → c ∈ M) → sound M ai →
  sound M (foldl (λ ai cell, mark_mine cell ai) ai l).
Proof.
  revert ai. induction l as [|c l IH]; intros ai Hl Hs; simpl; [done|].
  apply IH; [intros; apply Hl; by right|].
  apply sound_mark_mine; [apply Hl; by left|done].
Qed.

Lemma elem_of_drop_empty ai r :
  r ∈ knowledge (drop_empty ai) ↔
  r ∈ knowledge ai
  ∧ sentence_at (store ai) (λ s, bool_decide (0 < size (Sentence.cells s))) r = true.
Proof. unfold drop_empty. simpl. by rewrite list_elem_of_In, filter_In, <- list_elem_of_In. Qed.

Lemma sound_drop_empty M ai : sound M ai → sound M (drop_empty ai).
Proof.
  intros [Hrefs Htrue Hdrop Hres Hsafes Hmines].
  split; try done; unfold well_formed.
  - intros r Hr. apply elem_of_drop_empty in Hr as [Hr _]. by apply Hrefs.
  - intros r s Hs Hr. change (store (drop_empty ai)) with (store ai) in Hs.
    destruct (decide (r ∈ knowledge ai)) as [Hin|Hnin]; [|eauto].
    rewrite elem_of_drop_empty in Hr. unfold sentence_at in Hr. rewrite Hs in Hr.
    assert (Hsz : size (Sentence.cells s) = 0).
    { destruct (decide (0 < size (Sentence.cells s))) as [Hlt|]; [|lia].
      exfalso. apply Hr. split; [done|]. by apply bool_decide_eq_true. }
    apply size_empty_inv in Hsz. by apply leibniz_equiv.
Qed.

Lemma sound_append M s ai :
  true_sentence M s → Sentence.cells s ## safes ai ∪ mines ai →
  sound M ai → sound M (append s ai).
Proof.
  intros Ht Hd [Hrefs Htrue Hdrop Hres Hsafes Hmines].
  split; try done; unfold well_formed; simpl.
  - intros r Hr. rewrite length_app. simpl.
    apply elem_of_app in Hr as [Hr|Hr]; [apply Hrefs in Hr; lia|].
    apply list_elem_of_singleton in Hr. lia.
  - intros r s' Hs'. apply lookup_snoc_Some in Hs' as [[_ Hs']|[_ <-]]; eauto.
  - intros r s' Hs' Hr. apply not_elem_of_app in Hr as [Hr Hne].
    apply lookup_snoc_Some in Hs' as [[_ Hs']|[-> _]]; [eauto|].
    exfalso. apply Hne. by apply list_elem_of_singleton.
  - intros r s' Hs'. apply lookup_snoc_Some in Hs' as [[_ Hs']|[_ <-]]; eauto.
Qed.

Lemma true_candidate M A B :
  true_sentence M A → true_sentence M B →
  Sentence.cells B ⊆ Sentence.cells A → true_sentence M (candidate A B).
Proof.
  unfold true_sentence, candidate. simpl. intros -> -> Hsub.
  replace ((Sentence.cells A ∖ Sentence.cells B) ∩ M)
    with ((Sentence.cells A ∩ M) ∖ (Sentence.cells B ∩ M)) by set_solver.
  assert (Hs : Sentence.cells B ∩ M ⊆ Sentence.cells A ∩ M) by set_solver.
  rewrite (size_difference (Sentence.cells A ∩ M) (Sentence.cells B ∩ M)) by done.
  apply subseteq_size in Hs. lia.
Qed.

(** What one round of the inner loop does. *)
Lemma subset_step_eq r o ai A B :
  store ai !! r = Some A → store ai !! o = Some B →
  subset_step r o ai
  = Some (if appends A B ai then append (candidate A B) ai else ai).
Proof.
  intros HA HB. unfold subset_step, appends, resolves, candidate.
  rewrite HA, HB. simpl.
  destruct (negb (Sentence.eqb A B) && _); simpl; [|done].
  by destruct (negb (in_knowledge _ ai)).
Qed.

Lemma resolves_spec A B :
  resolves A B = true ↔ A ≠ B ∧ Sentence.cells B ⊆ Sentence.cells A.
Proof.
  unfold resolves. rewrite andb_true_iff, negb_true_iff, bool_decide_eq_true.
  rewrite <- not_true_iff_false, eqb_eq. done.
Qed.

Lemma sound_subset_step M r o ai ai' :
  sound M ai → subset_step r o ai = Some ai' →
  sound M ai' ∧ length (store ai) ≤ length (store ai')
  ∧ height ai' = height ai ∧ width ai' = width ai.
Proof.
  intros Hs Hstep.
  destruct (store ai !! r) as [A|] eqn:HA;
    [|by unfold subset_step in Hstep; rewrite HA in Hstep].
  destruct (store ai !! o) as [B|] eqn:HB;
    [|by unfold subset_step in Hstep; rewrite HA, HB in Hstep].
  rewrite (subset_step_eq r o ai A B HA HB) in Hstep.
  unfold appends in Hstep.
  destruct (resolves A B) eqn:Hres; simpl in Hstep;
    [|inversion Hstep; subst; done].
  destruct (in_knowledge (candidate A B) ai); simpl in Hstep;
    inversion Hstep; subst; [done|].
  apply resolves_spec in Hres as [_ Hsub].
  split_and!; [|simpl; rewrite length_app; lia|done..].
  apply sound_append; [..|done].
  - destruct Hs. eauto using true_candidate.
  - destruct Hs as [_ _ _ Hr _ _]. specialize (Hr _ _ HA).
    unfold candidate; simpl. set_solver.
Qed.

Lemma sound_subset_loop M r fuel i ai ai' :
  sound M ai → subset_loop fuel r i ai = Some ai' →
  sound M ai' ∧ length (store ai) ≤ length (store ai')
  ∧ height ai' = height ai ∧ width ai' = width ai.
Proof.
  revert i ai. induction fuel as [|fuel IH]; intros i ai Hs Hl; [done|].
  simpl in Hl. destruct (knowledge ai !! i) as [o|]; [|by inversion Hl; subst].
  destruct (subset_step r o ai) as [ai1|] eqn:Hstep; simpl in Hl; [|done].
  apply (sound_subset_step M) in Hstep as (Hs1 & Hlen & Hh & Hw); [|done].
  apply IH in Hl as (? & ? & ? & ?); [|done].
  split_and!; [done|lia|congruence..].
Qed.

(** *** The inner loop ends *)

Lemma sentence_at_snoc st D p r :
  r < length st → sentence_at (st ++ [D]) p r = sentence_at st p r.
Proof. intros Hr. unfold sentence_at. by rewrite lookup_app_l. Qed.

Lemma in_knowledge_append s D ai :
  well_formed ai →
  in_knowledge s (append D ai) = in_knowledge s ai || Sentence.eqb D s.
Proof.
  intros Hwf. unfold in_knowledge, append; simpl. rewrite existsb_app. f_equal.
  - unfold well_formed in Hwf. induction (knowledge ai) as [|a k IH]; [done|].
    simpl. rewrite sentence_at_snoc by (apply Hwf; by left).
    f_equal. apply IH. intros r Hr. apply Hwf. by right.
  - simpl. unfold sentence_at.
    rewrite (list_lookup_middle (store ai) [] D) by done. apply orb_false_r.
Qed.

Lemma in_knowledge_lookup ai i o B :
  knowledge ai !! i = Some o → store ai !! o = Some B →
  in_knowledge B ai = true.
Proof.
  intros Hi Ho. unfold in_knowledge. apply existsb_exists. exists o. split.
  - apply list_elem_of_In. by eapply list_elem_of_lookup_2.
  - unfold sentence_at. rewrite Ho. apply eqb_refl.
Qed.

(** Resolving [A] against the sentence derived from [A] and [B] gives [B]
    back, which is in the base already. *)
Lemma candidate_candidate A B :
  Sentence.cells B ⊆ Sentence.cells A → candidate A (candidate A B) = B.
Proof.
  intros Hsub. destruct A as [cA nA], B as [cB nB]. unfold candidate; simpl in *.
  unfold Sentence.init. f_equal; [|lia].
  apply set_eq. intros x. rewrite !elem_of_difference.
  destruct (decide (x ∈ cB)); set_solver.
Qed.

Lemma well_formed_append D ai : well_formed ai → well_formed (append D ai).
Proof.
  unfold well_formed; simpl. intros Hwf r Hr. rewrite length_app; simpl.
  apply elem_of_app in Hr as [Hr|Hr]; [apply Hwf in Hr; lia|].
  apply list_elem_of_singleton in Hr. lia.
Qed.

Lemma subset_loop_total r A n0 fuel i ai :
  well_formed ai → store ai !! r = Some A →
  n0 ≤ length (knowledge ai) →
  (∀ j o B, n0 ≤ j → knowledge ai !! j = Some o → store ai !! o = Some B →
            appends A B ai = false) →
  length (knowledge ai) - i + (n0 - i) < fuel →
  ∃ ai', subset_loop fuel r i ai = Some ai' ∧ well_formed ai'.
Proof.
  revert i ai. induction fuel as [|fuel IH]; intros i ai Hwf HA Hn0 Hset Hfuel;
    [lia|].
  simpl. destruct (knowledge ai !! i) as [o|] eqn:Hi; [|by exists ai].
  assert (Hlt : i < length (knowledge ai)) by by eapply lookup_lt_Some.
  assert (Ho : o < length (store ai)).
  { apply Hwf. by eapply list_elem_of_lookup_2. }
  apply lookup_lt_is_Some in Ho as [B HB].
  rewrite (subset_step_eq r o ai A B HA HB). simpl.
  destruct (appends A B ai) eqn:Happ.
  - assert (Hin0 : i < n0).
    { destruct (decide (i < n0)) as [|Hge]; [done|].
      rewrite (Hset i o B) in Happ; [done|lia|done..]. }
    apply andb_true_iff in Happ as [Hres Hnew].
    apply resolves_spec in Hres as [Hne Hsub].
    apply IH.
    + by apply well_formed_append.
    + simpl. by apply lookup_app_l_Some.
    + simpl. rewrite length_app. lia.
    + simpl. intros j o' B' Hj Hj' Ho'. unfold appends.
      rewrite in_knowledge_append by done.
      apply lookup_snoc_Some in Hj' as [[Hjlt Hj']|[_ <-]].
      * assert (Ho'' : o' < length (store ai)).
        { apply Hwf. by eapply list_elem_of_lookup_2. }
        rewrite lookup_app_l in Ho' by done.
        specialize (Hset j o' B' Hj Hj' Ho'). unfold appends in Hset.
        apply andb_false_iff in Hset as [->|Hk]; [done|].
        apply negb_false_iff in Hk. rewrite Hk. simpl. apply andb_false_r.
      * rewrite (list_lookup_middle (store ai) [] _) in Ho' by done.
        inversion Ho'; subst B'. rewrite candidate_candidate by done.
        rewrite (in_knowledge_lookup ai i o B) by done. simpl.
        apply andb_false_r.
    + simpl. rewrite length_app. simpl. lia.
  - apply IH; [done..|lia].
Qed.

(** The loop of lines 233-240 ends within the iterations it is given. *)
Lemma subset_loop_terminates r ai :
  well_formed ai → r < length (store ai) →
  ∃ ai', subset_loop (subset_fuel ai) r 0 ai = Some ai' ∧ well_formed ai'.
Proof.
  intros Hwf Hr. apply lookup_lt_is_Some in Hr as [A HA].
  apply (subset_loop_total r A (length (knowledge ai))); [done..| |].
  - intros j o B Hj Hlook. apply lookup_lt_Some in Hlook. lia.
  - unfold subset_fuel. lia.
Qed.

(** *** The order in which a set of cells is marked

    [for cell in sentence_safes: self.mark_safe(cell)] goes through a Python
    set in an order of its own; [infer_step] takes the order of [elements].
    The state the loop ends in does not depend on it. *)

Lemma sentence_mark_safe_comm c1 c2 s :
  Sentence.mark_safe c1 (Sentence.mark_safe c2 s)
  = Sentence.mark_safe c2 (Sentence.mark_safe c1 s).
Proof.
  destruct s as [X n]. unfold Sentence.mark_safe; simpl.
  repeat (case_bool_decide; simpl in * ); f_equal; set_solver.
Qed.

Lemma sentence_mark_mine_comm c1 c2 s :
  Sentence.mark_mine c1 (Sentence.mark_mine c2 s)
  = Sentence.mark_mine c2 (Sentence.mark_mine c1 s).
Proof.
  destruct s as [X n]. unfold Sentence.mark_mine; simpl.
  repeat (case_bool_decide; simpl in * ); f_equal; try lia; set_solver.
Qed.

Lemma for_each_sentence_comm m1 m2 k st :
  (∀ s, m1 (m1 s) = m1 s) → (∀ s, m2 (m2 s) = m2 s) →
  (∀ s, m1 (m2 s) = m2 (m1 s)) →
  for_each_sentence m1 k (for_each_sentence m2 k st)
  = for_each_sentence m2 k (for_each_sentence m1 k st).
Proof.
  intros H1 H2 H12. apply list_eq. intros i.
  rewrite !for_each_sentence_lookup by done.
  case_decide; [|done]. destruct (st !! i); simpl; [|done]. by rewrite H12.
Qed.

Lemma mark_safe_comm c1 c2 ai :
  mark_safe c1 (mark_safe c2 ai) = mark_safe c2 (mark_safe c1 ai).
Proof.
  unfold mark_safe; simpl. f_equal; [set_solver|].
  apply for_each_sentence_comm;
    auto using mark_safe_idemp, sentence_mark_safe_comm.
Qed.

Lemma mark_mine_comm c1 c2 ai :
  mark_mine c1 (mark_mine c2 ai) = mark_mine c2 (mark_mine c1 ai).
Proof.
  unfold mark_mine; simpl. f_equal; [set_solver|].
  apply for_each_sentence_comm;
    auto using mark_mine_idemp, sentence_mark_mine_comm.
Qed.

Lemma foldl_marks_permutation (mark : Cell → t → t) l1 l2 ai :
  (∀ c1 c2 ai, mark c1 (mark c2 ai) = mark c2 (mark c1 ai)) →
  l1 ≡ₚ l2 →
  foldl (λ ai cell, mark cell ai) ai l1 = foldl (λ ai cell, mark cell ai) ai l2.
Proof.
  intros Hcomm Hperm. revert ai.
  induction Hperm as [|c l1 l2 _ IH|c1 c2 l|l1 l2 l3 _ IH1 _ IH2]; intros ai;
    simpl.
  - done.
  - apply IH.
  - by rewrite Hcomm.
  - by rewrite IH1.
Qed.

Lemma marks_safe_any_order (l : list Cell) ai (X : gset Cell) :
  l ≡ₚ elements X →
  foldl (λ ai cell, mark_safe cell ai) ai l
  = foldl (λ ai cell, mark_safe cell ai) ai (elements X).
Proof. apply foldl_marks_permutation, mark_safe_comm. Qed.

Lemma marks_mine_any_order (l : list Cell) ai (X : gset Cell) :
  l ≡ₚ elements X →
  foldl (λ ai cell, mark_mine cell ai) ai l
  = foldl (λ ai cell, mark_mine cell ai) ai (elements X).
Proof. apply foldl_marks_permutation, mark_mine_comm. Qed.

End store.

(** ** [add_knowledge] on a consistent board *)

Section inference.
Import MinesweeperAI.
Implicit Types (ai : MinesweeperAI.t) (s : Sentence) (c cell d : Cell)
  (r : ref) (M : gset Cell) (g : Minesweeper.t).

(** One round of the outer loop returns, and keeps what the agent knows
    true. *)
Lemma infer_step_sound M r ai :
  sound M ai → r < length (store ai) →
  ∃ ai', infer_step r ai = Some ai' ∧ sound M ai'
    ∧ length (store ai) ≤ length (store ai')
    ∧ height ai' = height ai ∧ width ai' = width ai.
Proof.
  intros Hs Hr. pose proof Hr as Hr'.
  apply lookup_lt_is_Some in Hr' as [s Hlook].
  unfold infer_step. rewrite Hlook. simpl.
  set (ai1 := foldl (λ ai cell, mark_safe cell ai) ai
                (elements (Sentence.known_safes s).1)).
  set (ai2 := foldl (λ ai cell, mark_mine cell ai) ai1
                (elements (Sentence.known_mines s).1)).
  assert (Ht : true_sentence M s) by (destruct Hs; eauto).
  assert (Hs1 : sound M ai1).
  { apply sound_marks_safe; [|done]. intros c Hc%elem_of_elements.
    by eapply true_known_safes. }
  assert (Hs2 : sound M ai2).
  { apply sound_marks_mine; [|done]. intros c Hc%elem_of_elements.
    by eapply true_known_mines. }
  destruct (marks_safe_knowledge (elements (Sentence.known_safes s).1) ai)
    as (_ & Hl1 & Hh1 & Hw1).
  destruct (marks_mine_knowledge (elements (Sentence.known_mines s).1) ai1)
    as (_ & Hl2 & Hh2 & Hw2).
  fold ai1 in Hl1, Hh1, Hw1. fold ai2 in Hl2, Hh2, Hw2.
  pose proof (sound_drop_empty M ai2 Hs2) as Hs3.
  destruct (subset_loop_terminates r (drop_empty ai2)) as (ai' & Hloop & _).
  { by destruct Hs3. }
  { simpl. lia. }
  exists ai'. split; [done|].
  apply (sound_subset_loop M) in Hloop as (? & Hlen & Hh & Hw); [|done].
  simpl in *. split_and!; [done|lia|congruence..].
Qed.

Lemma infer_loop_sound M l0 ai :
  sound M ai → (∀ r, r ∈ l0 → r < length (store ai)) →
  ∃ ai', infer_loop l0 ai = Some ai' ∧ sound M ai'
    ∧ height ai' = height ai ∧ width ai' = width ai.
Proof.
  revert ai. induction l0 as [|r l0 IH]; intros ai Hs Hl0; simpl.
  - by exists ai.
  - destruct (infer_step_sound M r ai) as (ai1 & -> & Hs1 & Hlen & Hh & Hw);
      [done|apply Hl0; by left|]. simpl.
    destruct (IH ai1) as (ai' & Hloop & Hs' & Hh' & Hw'); [done| |].
    { intros r' Hr'. specialize (Hl0 r'). rewrite elem_of_cons in Hl0.
      specialize (Hl0 (or_intror Hr')). lia. }
    exists ai'. split_and!; [done..|congruence|congruence].
Qed.

Lemma elem_of_range3 (x y : Z) :
  y ∈ range3 x ↔ (y = x - 1 ∨ y = x ∨ y = x + 1)%Z.
Proof.
  unfold range3. rewrite !elem_of_cons, elem_of_nil. tauto.
Qed.

Lemma NoDup_range3 (x : Z) : NoDup (range3 x).
Proof.
  unfold range3. repeat apply NoDup_cons_2; try apply NoDup_nil_2;
    rewrite ?elem_of_cons, ?elem_of_nil; lia.
Qed.

Lemma elem_of_block cell d :
  d ∈ Minesweeper.block cell ↔ d.1 ∈ range3 cell.1 ∧ d.2 ∈ range3 cell.2.
Proof.
  unfold Minesweeper.block. rewrite list_elem_of_bind. split.
  - intros (i & Hd & Hi). apply list_elem_of_bind in Hd as (j & Hd & Hj).
    apply list_elem_of_singleton in Hd. by subst d.
  - intros [Hi Hj]. exists d.1. split; [|done].
    apply list_elem_of_bind. exists d.2. split; [|done].
    apply list_elem_of_singleton. by destruct d.
Qed.

Lemma NoDup_block cell : NoDup (Minesweeper.block cell).
Proof.
  unfold Minesweeper.block. apply NoDup_bind; [| |apply NoDup_range3].
  - intros i1 i2 d _ _ H1 H2.
    apply list_elem_of_bind in H1 as (j1 & H1 & _).
    apply list_elem_of_bind in H2 as (j2 & H2 & _).
    apply list_elem_of_singleton in H1, H2. congruence.
  - intros i _. apply NoDup_bind; [| |apply NoDup_range3].
    + intros j1 j2 d _ _ H1 H2. apply list_elem_of_singleton in H1, H2.
      congruence.
    + intros j _. apply NoDup_singleton.
Qed.

Lemma elem_of_neighbour_cells ai cell d :
  d ∈ neighbour_cells ai cell ↔
  d ∈ Minesweeper.block cell
  ∧ in_range d.1 (height ai) = true ∧ in_range d.2 (width ai) = true
  ∧ d ∉ safes ai.
Proof.
  unfold neighbour_cells, neighbour_list.
  rewrite elem_of_list_to_set, list_elem_of_bind, elem_of_block. split.
  - intros (row & Hd & Hrow).
    destruct (in_range row (height ai)) eqn:Er; [|by apply elem_of_nil in Hd].
    apply list_elem_of_bind in Hd as (col & Hd & Hcol).
    destruct (in_range col (width ai)) eqn:Ec; [|by apply elem_of_nil in Hd].
    case_bool_decide; [|by apply elem_of_nil in Hd].
    apply list_elem_of_singleton in Hd. by subst d.
  - intros ([Hrow Hcol] & Hr & Hc & Hs). exists d.1. split; [|done].
    rewrite Hr. apply list_elem_of_bind. exists d.2. split; [|done].
    rewrite Hc. destruct d as [row col]; simpl in *.
    rewrite bool_decide_eq_true_2 by done. by apply list_elem_of_singleton.
Qed.

(** The count the board gives for a cell is the number of mines among the
    neighbours the agent keeps. *)
Lemma nearby_mines_neighbours g ai cell :
  height ai = Minesweeper.height g → width ai = Minesweeper.width g →
  safes ai ## Minesweeper.mines g →
  Minesweeper.is_mine g cell = false →
  Minesweeper.nearby_mines g cell
  = Z.of_nat (size (neighbour_cells ai cell ∩ Minesweeper.mines g)).
Proof.
  intros Hh Hw Hsafe Hcell. unfold Minesweeper.nearby_mines. f_equal.
  rewrite <- (size_list_to_set (C := gset Cell)).
  2:{ apply NoDup_ListNoDup, List.NoDup_filter, NoDup_ListNoDup, NoDup_block. }
  f_equal. apply set_eq. intros d.
  rewrite elem_of_list_to_set, list_elem_of_In, filter_In, <- list_elem_of_In.
  rewrite elem_of_intersection, elem_of_neighbour_cells, Hh, Hw.
  rewrite !andb_true_iff, negb_true_iff, bool_decide_eq_false.
  unfold Minesweeper.is_mine in *. rewrite bool_decide_eq_true.
  apply bool_decide_eq_false in Hcell.
  split.
  - intros (Hb & (Hne & Hr & Hc) & Hm). split_and!; try done. set_solver.
  - intros ((Hb & Hr & Hc & Hs) & Hm). split_and!; try done. congruence.
Qed.

Lemma agrees_note_move g cell ai :
  agrees g ai → Minesweeper.is_mine g cell = false →
  agrees g (note_move cell ai).
Proof.
  intros (Hs & Hh & Hw) Hcell. unfold note_move.
  set (ai0 := mk (height ai) (width ai) ({[cell]} ∪ moves_made ai)
                 (mines ai) (safes ai) (knowledge ai) (store ai)).
  assert (Hs0 : sound (Minesweeper.mines g) ai0) by by destruct Hs.
  assert (Hnot : cell ∉ Minesweeper.mines g).
  { unfold Minesweeper.is_mine in Hcell. by apply bool_decide_eq_false in Hcell. }
  case_bool_decide; (split_and!; [|done..]); [by apply sound_mark_safe|done].
Qed.

Lemma agrees_add_sentence g cell count ai :
  agrees g ai → consistent g (cell, count) →
  agrees g (add_sentence cell count ai).
Proof.
  intros (Hs & Hh & Hw) (_ & Hcell & Hcount). simpl in Hcell, Hcount.
  unfold add_sentence.
  set (nb := neighbour_cells ai cell).
  set (known := filter (.∈ mines ai) nb).
  destruct (negb _ && _); [|done].
  split_and!; [|done..].
  apply sound_append; [| |done].
  - unfold true_sentence. simpl. rewrite Hcount.
    rewrite (nearby_mines_neighbours g ai cell);
      [|done|done|by destruct Hs|done].
    fold nb.
    assert (Hk : known ⊆ nb ∩ Minesweeper.mines g).
    { destruct Hs as [_ _ _ _ _ Hmines]. unfold known.
      intros d. rewrite elem_of_filter. set_solver. }
    replace ((nb ∖ known) ∩ Minesweeper.mines g)
      with ((nb ∩ Minesweeper.mines g) ∖ known) by set_solver.
    rewrite (size_difference (nb ∩ Minesweeper.mines g) known) by done.
    apply subseteq_size in Hk. lia.
  - simpl. intros d Hd Hd'. apply elem_of_difference in Hd as [Hnb Hnk].
    apply elem_of_neighbour_cells in Hnb as Hnb'.
    destruct Hnb' as (_ & _ & _ & Hsafe).
    apply elem_of_union in Hd' as [Hd'|Hd']; [done|].
    apply Hnk. unfold known. by apply elem_of_filter.
Qed.

(** [add_knowledge] returns, and keeps the agent in agreement with the
    board, when the observation is one the board gives. *)
Lemma agrees_add_knowledge g cell count ai :
  agrees g ai → consistent g (cell, count) →
  ∃ ai', add_knowledge cell count ai = Some ai' ∧ agrees g ai'.
Proof.
  intros Ha Hc. unfold add_knowledge.
  assert (Ha1 : agrees g (note_move cell ai)).
  { apply agrees_note_move; [done|]. by destruct Hc as (_ & ? & _). }
  destruct (agrees_add_sentence g cell count _ Ha1 Hc) as (Hs & Hh & Hw).
  destruct (infer_loop_sound (Minesweeper.mines g)
              (knowledge (add_sentence cell count (note_move cell ai)))
              (add_sentence cell count (note_move cell ai)))
    as (ai' & Hl & Hs' & Hh' & Hw'); [done|by destruct Hs|].
  exists ai'. split; [done|]. split_and!; [done|congruence..].
Qed.

Lemma agrees_add_knowledge_all g obs ai :
  agrees g ai → Forall (consistent g) obs →
  ∃ ai', add_knowledge_all obs ai = Some ai' ∧ agrees g ai'.
Proof.
  intros Ha Hobs. revert ai Ha.
  induction Hobs as [|[cell count] obs Hc _ IH]; intros ai Ha; simpl.
  - by exists ai.
  - destruct (agrees_add_knowledge g cell count ai Ha Hc) as (ai1 & -> & Ha1).
    simpl. by apply IH.
Qed.

Lemma agrees_init g :
  agrees g (init (Minesweeper.height g) (Minesweeper.width g)).
Proof. split; [apply sound_init|done]. Qed.

(** *** [add_knowledge] returns

    On every agent whose references are in the store, whatever the cell and
    the count: the inner loop never needs more than the iterations
    [subset_fuel] gives it, and every reference stays in the store. *)

Lemma well_formed_marks_safe (l : list Cell) ai :
  well_formed ai → well_formed (foldl (λ ai cell, mark_safe cell ai) ai l).
Proof.
  unfold well_formed. destruct (marks_safe_knowledge l ai) as (-> & -> & _).
  done.
Qed.

Lemma well_formed_marks_mine (l : list Cell) ai :
  well_formed ai → well_formed (foldl (λ ai cell, mark_mine cell ai) ai l).
Proof.
  unfold well_formed. destruct (marks_mine_knowledge l ai) as (-> & -> & _).
  done.
Qed.

Lemma well_formed_drop_empty ai : well_formed ai → well_formed (drop_empty ai).
Proof.
  unfold well_formed. intros Hwf r Hr.
  apply elem_of_drop_empty in Hr as [Hr _]. by apply Hwf.
Qed.

Lemma subset_loop_store_length r fuel i ai ai' :
  subset_loop fuel r i ai = Some ai' → length (store ai) ≤ length (store ai').
Proof.
  revert i ai. induction fuel as [|fuel IH]; intros i ai Hl; [done|].
  simpl in Hl. destruct (knowledge ai !! i) as [o|]; [|by inversion Hl; subst].
  destruct (subset_step r o ai) as [ai1|] eqn:Hstep; simpl in Hl; [|done].
  apply IH in Hl. etrans; [|exact Hl].
  unfold subset_step in Hstep.
  destruct (store ai !! r) as [A|]; simpl in Hstep; [|done].
  destruct (store ai !! o) as [B|]; simpl in Hstep; [|done].
  repeat (match type of Hstep with
          | (if ?b then _ else _) = _ => destruct b
          end); inversion Hstep; subst; simpl; rewrite ?length_app; lia.
Qed.

Lemma infer_step_returns r ai :
  well_formed ai → r < length (store ai) →
  ∃ ai', infer_step r ai = Some ai' ∧ well_formed ai'
         ∧ length (store ai) ≤ length (store ai').
Proof.
  intros Hwf Hr. pose proof Hr as Hr'.
  apply lookup_lt_is_Some in Hr' as [s Hlook].
  unfold infer_step. rewrite Hlook. simpl.
  set (ai1 := foldl (λ ai cell, mark_safe cell ai) ai
                (elements (Sentence.known_safes s).1)).
  set (ai2 := foldl (λ ai cell, mark_mine cell ai) ai1
                (elements (Sentence.known_mines s).1)).
  destruct (marks_safe_knowledge (elements (Sentence.known_safes s).1) ai)
    as (_ & Hl1 & _).
  destruct (marks_mine_knowledge (elements (Sentence.known_mines s).1) ai1)
    as (_ & Hl2 & _).
  fold ai1 in Hl1. fold ai2 in Hl2.
  assert (Hwf2 : well_formed ai2)
    by by apply well_formed_marks_mine, well_formed_marks_safe.
  destruct (subset_loop_terminates r (drop_empty ai2)) as (ai' & Hloop & Hwf').
  { by apply well_formed_drop_empty. }
  { simpl. lia. }
  exists ai'. split_and!; [done..|].
  apply subset_loop_store_length in Hloop. simpl in Hloop. lia.
Qed.

Lemma infer_loop_returns l0 ai :
  well_formed ai → (∀ r, r ∈ l0 → r < length (store ai)) →
  ∃ ai', infer_loop l0 ai = Some ai' ∧ well_formed ai'.
Proof.
  revert ai. induction l0 as [|r l0 IH]; intros ai Hwf Hl0; simpl.
  - by exists ai.
  - destruct (infer_step_returns r ai) as (ai1 & -> & Hwf1 & Hlen);
      [done|apply Hl0; by left|]. simpl.
    apply IH; [done|]. intros r' Hr'. specialize (Hl0 r').
    rewrite elem_of_cons in Hl0. specialize (Hl0 (or_intror Hr')). lia.
Qed.

Lemma add_knowledge_returns cell count ai :
  well_formed ai →
  ∃ ai', add_knowledge cell count ai = Some ai' ∧ well_formed ai'.
Proof.
  intros Hwf. unfold add_knowledge.
  assert (Hwf1 : well_formed (note_move cell ai)).
  { unfold note_move. case_bool_decide; [|done].
    unfold well_formed; simpl. intros r Hr.
    rewrite for_each_sentence_length. by apply Hwf. }
  assert (Hwf2 : well_formed (add_sentence cell count (note_move cell ai))).
  { unfold add_sentence. destruct (negb _ && _); [|done].
    by apply well_formed_append. }
  by apply infer_loop_returns.
Qed.

End inference.

(** ** The states [add_knowledge] passes through *)

Section states.
Import MinesweeperAI.
Implicit Types (ai : MinesweeperAI.t) (s : Sentence) (c cell : Cell)
  (st : list Sentence) (k : list ref) (r : ref) (M : gset Cell)
  (g : Minesweeper.t).

Lemma ends_at_nil {A} (a : A) : ends_at a [] a.
Proof. done. Qed.

Lemma ends_at_cons {A} (a b c : A) l : ends_at b l c → ends_at a (b :: l) c.
Proof. unfold ends_at. by rewrite last_cons_cons. Qed.

Lemma ends_at_app {A} (a b c : A) l1 l2 :
  ends_at a l1 b → ends_at b l2 c → ends_at a (l1 ++ l2) c.
Proof.
  revert a. induction l1 as [|x l1 IH]; intros a H1 H2.
  - unfold ends_at in H1. simpl in H1. by inversion H1; subst.
  - simpl. apply ends_at_cons, IH; [|done].
    unfold ends_at in *. by rewrite last_cons_cons in H1.
Qed.

Lemma ends_at_fmap {A B} (f : A → B) (a b : A) l :
  ends_at a l b → ends_at (f a) (f <$> l) (f b).
Proof.
  revert a. induction l as [|x l IH]; intros a H.
  - unfold ends_at in *. simpl in *. by inversion H.
  - rewrite fmap_cons. apply ends_at_cons, IH.
    unfold ends_at in *. by rewrite last_cons_cons in H.
Qed.

Lemma sound_all_true M ai : sound M ai → all_true M ai.
Proof. by intros []. Qed.

Lemma all_true_bounded M ai : all_true M ai → counts_bounded ai.
Proof. intros Ht r s Hs. eapply true_sentence_bounds, Ht, Hs. Qed.

Lemma for_each_sentence_states_ends m k st :
  ends_at st (for_each_sentence_states m k st) (for_each_sentence m k st).
Proof.
  revert st. induction k as [|r k IH]; intros st; [done|].
  simpl. apply ends_at_cons, IH.
Qed.

Lemma for_each_sentence_states_true M m k st :
  (∀ s, true_sentence M s → true_sentence M (m s)) →
  (∀ r s, st !! r = Some s → true_sentence M s) →
  Forall (λ st', ∀ r s, st' !! r = Some s → true_sentence M s)
         (for_each_sentence_states m k st).
Proof.
  intros Hm. revert st. induction k as [|r0 k IH]; intros st Hst; simpl;
    [done|].
  assert (Hst' : ∀ r s, alter m r0 st !! r = Some s → true_sentence M s).
  { intros r s. destruct (decide (r0 = r)) as [->|Hne].
    - rewrite list_lookup_alter_eq. destruct (st !! r) eqn:E; simpl; [|done].
      intros [= <-]. eauto.
    - rewrite list_lookup_alter_ne by done. apply Hst. }
  apply Forall_cons. split; [done|]. by apply IH.
Qed.

Lemma mark_safe_states_ends c ai :
  ends_at ai (mark_safe_states c ai) (mark_safe c ai).
Proof.
  unfold mark_safe_states. apply ends_at_cons.
  match goal with |- ends_at ?a0 _ _ =>
    exact (ends_at_fmap (set_store a0) _ _ _
             (for_each_sentence_states_ends (Sentence.mark_safe c)
                (knowledge ai) (store ai)))
  end.
Qed.

Lemma mark_mine_states_ends c ai :
  ends_at ai (mark_mine_states c ai) (mark_mine c ai).
Proof.
  unfold mark_mine_states. apply ends_at_cons.
  match goal with |- ends_at ?a0 _ _ =>
    exact (ends_at_fmap (set_store a0) _ _ _
             (for_each_sentence_states_ends (Sentence.mark_mine c)
                (knowledge ai) (store ai)))
  end.
Qed.

Lemma mark_safe_states_true M c ai :
  c ∉ M → all_true M ai → Forall (all_true M) (mark_safe_states c ai).
Proof.
  intros Hc Ht. unfold mark_safe_states. apply Forall_cons. split; [done|].
  apply Forall_fmap.
  apply (for_each_sentence_states_true M); [|done].
  intros s. by apply true_mark_safe.
Qed.

Lemma mark_mine_states_true M c ai :
  c ∈ M → all_true M ai → Forall (all_true M) (mark_mine_states c ai).
Proof.
  intros Hc Ht. unfold mark_mine_states. apply Forall_cons. split; [done|].
  apply Forall_fmap.
  apply (for_each_sentence_states_true M); [|done].
  intros s. by apply true_mark_mine.
Qed.

Lemma marks_states_ends mark states l ai :
  (∀ c ai, ends_at ai (states c ai) (mark c ai)) →
  ends_at ai (marks_states mark states l ai) (foldl (λ ai c, mark c ai) ai l).
Proof.
  intros Hm. revert ai. induction l as [|c l IH]; intros ai; simpl; [done|].
  eapply ends_at_app; [apply Hm|apply IH].
Qed.

Lemma marks_states_true M (Q : Cell → Prop) mark states l ai :
  (∀ c ai, Q c → sound M ai →
     sound M (mark c ai) ∧ Forall (all_true M) (states c ai)) →
  (∀ c, c ∈ l → Q c) → sound M ai →
  Forall (all_true M) (marks_states mark states l ai).
Proof.
  intros Hm. revert ai. induction l as [|c l IH]; intros ai Hl Hs; simpl;
    [done|].
  destruct (Hm c ai) as [Hs' Hf]; [apply Hl; by left|done|].
  apply Forall_app. split; [done|]. apply IH; [|done].
  intros c' Hc'. apply Hl. by right.
Qed.

Lemma subset_loop_states_ends r fuel i ai ai' :
  subset_loop fuel r i ai = Some ai' →
  ends_at ai (subset_loop_states fuel r i ai) ai'.
Proof.
  revert i ai. induction fuel as [|fuel IH]; intros i ai Hl; [done|].
  simpl in *. destruct (knowledge ai !! i) as [o|]; [|by inversion Hl].
  destruct (subset_step r o ai) as [ai1|]; simpl in Hl; [|done].
  apply ends_at_cons. by apply IH.
Qed.

Lemma subset_loop_states_true M r fuel i ai :
  sound M ai → Forall (all_true M) (subset_loop_states fuel r i ai).
Proof.
  revert i ai. induction fuel as [|fuel IH]; intros i ai Hs; [done|].
  simpl. destruct (knowledge ai !! i) as [o|]; [|done].
  destruct (subset_step r o ai) as [ai1|] eqn:Hstep; [|done].
  apply (sound_subset_step M) in Hstep as (Hs1 & _); [|done].
  apply Forall_cons. split; [by apply sound_all_true|]. by apply IH.
Qed.

Lemma infer_step_states_spec M r ai ai' :
  sound M ai → infer_step r ai = Some ai' →
  ends_at ai (infer_step_states r ai) ai'
  ∧ Forall (all_true M) (infer_step_states r ai).
Proof.
  intros Hs Hstep. unfold infer_step_states.
  destruct (store ai !! r) as [s|] eqn:Hlook;
    [|by unfold infer_step in Hstep; rewrite Hlook in Hstep].
  set (ai1 := foldl (λ ai cell, mark_safe cell ai) ai
                (elements (Sentence.known_safes s).1)).
  set (ai2 := foldl (λ ai cell, mark_mine cell ai) ai1
                (elements (Sentence.known_mines s).1)).
  assert (Hloop : subset_loop (subset_fuel (drop_empty ai2)) r 0 (drop_empty ai2)
                  = Some ai').
  { unfold infer_step in Hstep. rewrite Hlook in Hstep. exact Hstep. }
  assert (Ht : true_sentence M s) by (destruct Hs; eauto).
  assert (Hsafe : ∀ c, c ∈ elements (Sentence.known_safes s).1 → c ∉ M).
  { intros c Hc%elem_of_elements. by eapply true_known_safes. }
  assert (Hmine : ∀ c, c ∈ elements (Sentence.known_mines s).1 → c ∈ M).
  { intros c Hc%elem_of_elements. by eapply true_known_mines. }
  assert (Hs1 : sound M ai1) by by apply sound_marks_safe.
  assert (Hs2 : sound M ai2) by by apply sound_marks_mine.
  pose proof (sound_drop_empty M ai2 Hs2) as Hs3.
  split.
  - eapply ends_at_app;
      [apply marks_states_ends, mark_safe_states_ends|].
    eapply ends_at_app;
      [apply marks_states_ends, mark_mine_states_ends|].
    fold ai1 ai2. by apply ends_at_cons, subset_loop_states_ends.
  - apply Forall_app. split.
    { apply (marks_states_true M (λ c, c ∉ M)); [|done..].
      intros c a Hc Ha. split; [by apply sound_mark_safe|].
      by apply mark_safe_states_true, sound_all_true. }
    apply Forall_app. split.
    { apply (marks_states_true M (λ c, c ∈ M)); [|done..].
      intros c a Hc Ha. split; [by apply sound_mark_mine|].
      by apply mark_mine_states_true, sound_all_true. }
    apply Forall_cons. split; [by apply sound_all_true|].
    by apply subset_loop_states_true.
Qed.

Lemma infer_loop_states_spec M l0 ai ai' :
  sound M ai → (∀ r, r ∈ l0 → r < length (store ai)) →
  infer_loop l0 ai = Some ai' →
  ends_at ai (infer_loop_states l0 ai) ai'
  ∧ Forall (all_true M) (infer_loop_states l0 ai).
Proof.
  revert ai. induction l0 as [|r l0 IH]; intros ai Hs Hl0 Hloop; simpl in *.
  - inversion Hloop; subst. done.
  - destruct (infer_step_sound M r ai) as (ai1 & Hstep & Hs1 & Hlen & _);
      [done|apply Hl0; by left|].
    rewrite Hstep in *. simpl in Hloop.
    destruct (infer_step_states_spec M r ai ai1 Hs Hstep) as [He Hf].
    destruct (IH ai1) as [He' Hf']; [done| |done|].
    { intros r' Hr'. specialize (Hl0 r'). rewrite elem_of_cons in Hl0.
      specialize (Hl0 (or_intror Hr')). lia. }
    split; [by apply (ends_at_app ai ai1 ai')|by apply Forall_app].
Qed.

Lemma note_move_states_spec M cell ai :
  cell ∉ M → all_true M ai →
  ends_at ai (note_move_states cell ai) (note_move cell ai)
  ∧ Forall (all_true M) (note_move_states cell ai).
Proof.
  intros Hc Ht. unfold note_move_states, note_move. split.
  - apply ends_at_cons. case_bool_decide; [apply mark_safe_states_ends|done].
  - apply Forall_cons. split; [done|].
    case_bool_decide; [by apply mark_safe_states_true|done].
Qed.

Lemma add_knowledge_states_spec g cell count ai ai' :
  agrees g ai → consistent g (cell, count) →
  add_knowledge cell count ai = Some ai' →
  ends_at ai (add_knowledge_states cell count ai) ai'
  ∧ Forall (all_true (Minesweeper.mines g)) (add_knowledge_states cell count ai).
Proof.
  intros Ha Hc Hadd. unfold add_knowledge, add_knowledge_states in *.
  assert (Hcell : Minesweeper.is_mine g cell = false)
    by by destruct Hc as (_ & ? & _).
  assert (Hnot : cell ∉ Minesweeper.mines g).
  { unfold Minesweeper.is_mine in Hcell. by apply bool_decide_eq_false in Hcell. }
  pose proof (agrees_note_move g cell ai Ha Hcell) as Ha1.
  pose proof (agrees_add_sentence g cell count _ Ha1 Hc) as (Hs2 & _).
  destruct (note_move_states_spec (Minesweeper.mines g) cell ai) as [He1 Hf1];
    [done|apply sound_all_true; by destruct Ha|].
  destruct (infer_loop_states_spec (Minesweeper.mines g)
              (knowledge (add_sentence cell count (note_move cell ai)))
              (add_sentence cell count (note_move cell ai)) ai' Hs2)
    as [He2 Hf2]; [by destruct Hs2|done|].
  split.
  - eapply ends_at_app; [done|]. by apply ends_at_cons.
  - apply Forall_app. split; [done|]. apply Forall_cons.
    split; [by apply sound_all_true|done].
Qed.

Lemma add_knowledge_all_states_spec g obs ai :
  agrees g ai → Forall (consistent g) obs →
  ∃ ai', add_knowledge_all obs ai = Some ai' ∧ agrees g ai'
    ∧ ends_at ai (add_knowledge_all_states obs ai) ai'
    ∧ Forall (all_true (Minesweeper.mines g)) (add_knowledge_all_states obs ai).
Proof.
  intros Ha Hobs. revert ai Ha.
  induction Hobs as [|[cell count] obs Hc _ IH]; intros ai Ha.
  - exists ai. by split_and!.
  - destruct (agrees_add_knowledge g cell count ai Ha Hc) as (ai1 & Hadd & Ha1).
    destruct (add_knowledge_states_spec g cell count ai ai1 Ha Hc Hadd)
      as [He Hf].
    destruct (IH ai1 Ha1) as (ai' & Hrun & Ha' & He' & Hf').
    exists ai'.
    change (add_knowledge_all ((cell, count) :: obs) ai)
      with (add_knowledge cell count ai ≫= add_knowledge_all obs).
    change (add_knowledge_all_states ((cell, count) :: obs) ai)
      with (add_knowledge_states cell count ai
            ++ match add_knowledge cell count ai with
               | Some ai => add_knowledge_all_states obs ai
               | None => []
               end).
    rewrite Hadd. split_and!; [done..| |by apply Forall_app].
    by apply (ends_at_app ai ai1 ai').
Qed.

End states.

(** ** What [add_knowledge] guarantees, and what it does not *)

Section knowledge_base.
Import MinesweeperAI.
Implicit Types (ai : MinesweeperAI.t) (s : Sentence) (g : Minesweeper.t).

Lemma corner_play_consistent : Forall (consistent corner_board) corner_play.
Proof.
  repeat apply Forall_cons_2; try apply Forall_nil_2;
    (split; [unfold in_bounds; simpl; lia|split; vm_compute; reflexivity]).
Qed.

(** C3: after any sequence of calls whose observations the board gives, no
    cell is both in [safes] and in [mines], and no cell of either occurs in a
    sentence of the knowledge base. *)
Theorem marks_disjoint_and_propagated g obs :
  Forall (consistent g) obs →
  ∃ ai,
    add_knowledge_all obs (init (Minesweeper.height g) (Minesweeper.width g))
    = Some ai
    ∧ safes ai ∩ mines ai = ∅
    ∧ ∀ r s c, kb_sentence ai r s → c ∈ safes ai ∪ mines ai →
               c ∉ Sentence.cells s.
Proof.
  intros Hobs.
  destruct (agrees_add_knowledge_all g obs _ (agrees_init g) Hobs)
    as (ai & Hrun & [_ _ _ Hres Hsafes Hmines] & _).
  exists ai. split_and!; [done|set_solver|].
  intros r s c [_ Hs] Hc Hin. by apply (Hres r s Hs c).
Qed.

Lemma marks_disjoint_and_propagated_witness :
  ∃ ai,
    add_knowledge_all corner_play (init 2 3) = Some ai
    ∧ safes ai ∩ mines ai = ∅
    ∧ ∀ r s c, kb_sentence ai r s → c ∈ safes ai ∪ mines ai →
               c ∉ Sentence.cells s.
Proof.
  apply (marks_disjoint_and_propagated corner_board corner_play).
  repeat apply Forall_cons_2; try apply Forall_nil_2;
    (split; [unfold in_bounds; simpl; lia|split; vm_compute; reflexivity]).
Defined.

(** C9: through any sequence of calls whose observations the board gives,
    in every state the agent passes through and in the one it ends in, every
    sentence object the agent has created, in the knowledge base or dropped
    from it, has a count between zero and the number of its cells. *)
Theorem sentence_counts_bounded g obs :
  Forall (consistent g) obs →
  ∃ ai,
    add_knowledge_all obs (init (Minesweeper.height g) (Minesweeper.width g))
    = Some ai
    ∧ ends_at (init (Minesweeper.height g) (Minesweeper.width g))
        (add_knowledge_all_states obs
           (init (Minesweeper.height g) (Minesweeper.width g)))
        ai
    ∧ Forall counts_bounded
        (init (Minesweeper.height g) (Minesweeper.width g)
         :: add_knowledge_all_states obs
              (init (Minesweeper.height g) (Minesweeper.width g))).
Proof.
  intros Hobs.
  destruct (add_knowledge_all_states_spec g obs _ (agrees_init g) Hobs)
    as (ai & Hrun & _ & Hends & Hall).
  exists ai. split_and!; [done..|].
  apply Forall_cons. split.
  - intros r s Hs. simpl in Hs. by rewrite lookup_nil in Hs.
  - eapply Forall_impl; [exact Hall|]. intros ai'. apply all_true_bounded.
Qed.

Lemma sentence_counts_bounded_witness :
  ∃ ai,
    add_knowledge_all corner_play (init 2 3) = Some ai
    ∧ ends_at (init 2 3) (add_knowledge_all_states corner_play (init 2 3)) ai
    ∧ Forall counts_bounded
        (init 2 3 :: add_knowledge_all_states corner_play (init 2 3)).
Proof.
  apply (sentence_counts_bounded corner_board corner_play).
  repeat apply Forall_cons_2; try apply Forall_nil_2;
    (split; [unfold in_bounds; simpl; lia|split; vm_compute; reflexivity]).
Defined.

(** C1: two moves the corner board allows leave the sentence [{(0,2), (1,2)} = 0]
    in the knowledge base while neither cell is in [safes]: the state
    [add_knowledge] returns is not a propagation fixpoint. *)
Theorem add_knowledge_stops_before_fixpoint :
  Forall (consistent corner_board) corner_play
  ∧ ∃ ai,
      add_knowledge_all corner_play (init 2 3) = Some ai
      ∧ kb_sentence ai 2 (Sentence.mk {[ (0, 2)%Z; (1, 2)%Z ]} 0)
      ∧ ((0, 2)%Z ∉ safes ai)
      ∧ ¬ propagation_fixpoint ai.
Proof.
  split; [apply corner_play_consistent|].
  eexists. split; [vm_compute; reflexivity|].
  assert (Hkb : kb_sentence
    (mk 2 3 {[ (0, 1)%Z; (1, 0)%Z ]} ∅ {[ (0, 1)%Z; (1, 0)%Z ]} [0; 1; 2]
       [Sentence.mk {[ (0, 0)%Z; (0, 2)%Z; (1, 1)%Z; (1, 2)%Z ]} 1;
        Sentence.mk {[ (0, 0)%Z; (1, 1)%Z ]} 1;
        Sentence.mk {[ (0, 2)%Z; (1, 2)%Z ]} 0])
    2 (Sentence.mk {[ (0, 2)%Z; (1, 2)%Z ]} 0)).
  { split; [|reflexivity]. set_solver. }
  assert (Hnot : (0, 2)%Z ∉ ({[ (0, 1)%Z; (1, 0)%Z ]} : gset Cell)).
  { set_solver. }
  split_and!; [exact Hkb|exact Hnot|].
  intros (Hmarks & _ & _). destruct (Hmarks _ _ Hkb) as [Hsafe _].
  apply Hnot, Hsafe. unfold Sentence.known_safes.
  rewrite bool_decide_eq_true_2 by done. simpl. set_solver.
Qed.

(** Where every sentence is true of one board, the sentence subset-resolution
    derives is never empty: the emptiness test is missed only when the
    observations contradict each other. *)
Lemma candidate_nonempty M A B :
  true_sentence M A → true_sentence M B → resolves A B = true →
  Sentence.cells (candidate A B) ≠ ∅.
Proof.
  unfold true_sentence. intros HA HB [Hne Hsub]%resolves_spec Hempty.
  apply Hne. simpl in Hempty.
  assert (Hcells : Sentence.cells A = Sentence.cells B).
  { apply set_eq. intros x. split; [|set_solver].
    intros Hx. destruct (decide (x ∈ Sentence.cells B)); set_solver. }
  destruct A as [cA nA], B as [cB nB]; simpl in *. subst. done.
Qed.

Lemma all_true_appends_new_nonempty M ai :
  all_true M ai → appends_new_nonempty ai.
Proof.
  intros Ht r o A B HA HB.
  rewrite (subset_step_eq r o ai A B HA HB). unfold appends.
  destruct (resolves A B) eqn:Hres; simpl.
  - destruct (in_knowledge (candidate A B) ai) eqn:Hin; simpl.
    + eexists. split; [done|]. right. split; [done|].
      intros (_ & _ & ?). congruence.
    + eexists. split; [done|]. left.
      pose proof Hres as [Hne Hsub]%resolves_spec.
      split_and!; try done. eapply candidate_nonempty; eauto.
  - eexists. split; [done|]. right. split; [done|].
    intros (Hne & Hsub & _).
    assert (resolves A B = true) by by apply resolves_spec.
    congruence.
Qed.

(** C2: through any sequence of calls whose observations the board gives, in
    every state the agent passes through and for any two sentence objects,
    the body of the inner loop appends the difference of the two sentences
    only when they are distinct, the cells of the second are among those of
    the first, the difference is not in the base yet and it has at least one
    cell: subset-resolution never appends a sentence without cells. The code
    has no emptiness test at line 239; on such a play the difference of two
    distinct sentences is never empty. *)
Theorem subset_resolution_appends_new_nonempty g obs :
  Forall (consistent g) obs →
  ∃ ai,
    add_knowledge_all obs (init (Minesweeper.height g) (Minesweeper.width g))
    = Some ai
    ∧ ends_at (init (Minesweeper.height g) (Minesweeper.width g))
        (add_knowledge_all_states obs
           (init (Minesweeper.height g) (Minesweeper.width g)))
        ai
    ∧ Forall appends_new_nonempty
        (init (Minesweeper.height g) (Minesweeper.width g)
         :: add_knowledge_all_states obs
              (init (Minesweeper.height g) (Minesweeper.width g))).
Proof.
  intros Hobs.
  destruct (add_knowledge_all_states_spec g obs _ (agrees_init g) Hobs)
    as (ai & Hrun & _ & Hends & Hall).
  exists ai. split_and!; [done..|].
  apply Forall_cons. split.
  - intros r o A B HA. simpl in HA. by rewrite lookup_nil in HA.
  - eapply Forall_impl; [exact Hall|]. intros ai'.
    apply all_true_appends_new_nonempty.
Qed.

Lemma subset_resolution_appends_new_nonempty_witness :
  ∃ ai,
    add_knowledge_all corner_play (init 2 3) = Some ai
    ∧ ends_at (init 2 3) (add_knowledge_all_states corner_play (init 2 3)) ai
    ∧ Forall appends_new_nonempty
        (init 2 3 :: add_knowledge_all_states corner_play (init 2 3)).
Proof.
  apply (subset_resolution_appends_new_nonempty corner_board corner_play).
  repeat apply Forall_cons_2; try apply Forall_nil_2;
    (split; [unfold in_bounds; simpl; lia|split; vm_compute; reflexivity]).
Defined.

End knowledge_base.

(** * Further properties of the code *)

(** ** The rules of a sentence *)

Section sentence_rules.
Implicit Types (s : Sentence) (c : Cell) (M : gset Cell).

(** No sentence yields a cell both as safe and as a mine, and a sentence
    with cells yields at most one of the two sets. *)
Theorem known_safes_known_mines_apart s :
  (Sentence.known_safes s).1 ∩ (Sentence.known_mines s).1 = ∅
  ∧ (Sentence.known_safes s).1 ⊆ Sentence.cells s
  ∧ (Sentence.known_mines s).1 ⊆ Sentence.cells s
  ∧ ((Sentence.known_safes s).1 = ∅ ∨ (Sentence.known_mines s).1 = ∅).
Proof.
  unfold Sentence.known_safes, Sentence.known_mines.
  case_bool_decide as H0; case_bool_decide as Hn; simpl;
    split_and!; try set_solver.
  - rewrite H0 in Hn.
    assert (Hsz : size (Sentence.cells s) = 0) by lia.
    apply size_empty_inv in Hsz. set_solver.
  - left. rewrite H0 in Hn.
    assert (Hsz : size (Sentence.cells s) = 0) by lia.
    apply size_empty_inv in Hsz. set_solver.
Qed.

Lemma sentence_mark_mine_safe_comm c c' s :
  c ≠ c' →
  Sentence.mark_mine c (Sentence.mark_safe c' s)
  = Sentence.mark_safe c' (Sentence.mark_mine c s).
Proof.
  intros Hne. destruct s as [X n].
  unfold Sentence.mark_mine, Sentence.mark_safe; simpl.
  repeat (case_bool_decide; simpl in * ); f_equal; set_solver.
Qed.

(** Marks of one cell: the first decides, the second finds the cell gone, so
    the two kinds do not commute on a member cell. Marks of two cells
    commute, whatever their kinds. *)
Theorem sentence_marks_compose s c c' :
  Sentence.mark_safe c (Sentence.mark_mine c s) = Sentence.mark_mine c s
  ∧ Sentence.mark_mine c (Sentence.mark_safe c s) = Sentence.mark_safe c s
  ∧ (c ∈ Sentence.cells s →
     Sentence.mark_safe c (Sentence.mark_mine c s)
     ≠ Sentence.mark_mine c (Sentence.mark_safe c s))
  ∧ Sentence.mark_safe c (Sentence.mark_safe c' s)
    = Sentence.mark_safe c' (Sentence.mark_safe c s)
  ∧ Sentence.mark_mine c (Sentence.mark_mine c' s)
    = Sentence.mark_mine c' (Sentence.mark_mine c s)
  ∧ (c ≠ c' →
     Sentence.mark_mine c (Sentence.mark_safe c' s)
     = Sentence.mark_safe c' (Sentence.mark_mine c s)).
Proof.
  split_and!.
  - apply mark_safe_not_elem. rewrite mark_mine_cells. set_solver.
  - apply mark_mine_not_elem. rewrite mark_safe_cells. set_solver.
  - intros Hc.
    rewrite (mark_safe_not_elem (Sentence.mark_mine c s))
      by (rewrite mark_mine_cells; set_solver).
    rewrite (mark_mine_not_elem (Sentence.mark_safe c s))
      by (rewrite mark_safe_cells; set_solver).
    rewrite mark_mine_elem, mark_safe_elem by done.
    intros Heq. inversion Heq. lia.
  - apply sentence_mark_safe_comm.
  - apply sentence_mark_mine_comm.
  - apply sentence_mark_mine_safe_comm.
Qed.

(** The rules are sound: of a sentence that is true of the mines [M], the
    cells it yields as safe hold no mine and the cells it yields as mines
    hold one; marking a cell for what it is keeps the sentence true, and
    its count between zero and the number of its cells. *)
Theorem sentence_rules_sound M s c :
  true_sentence M s →
  (c ∈ (Sentence.known_safes s).1 → c ∉ M)
  ∧ (c ∈ (Sentence.known_mines s).1 → c ∈ M)
  ∧ (c ∉ M → true_sentence M (Sentence.mark_safe c s))
  ∧ (c ∈ M → true_sentence M (Sentence.mark_mine c s))
  ∧ (0 ≤ Sentence.count s ≤ Z.of_nat (size (Sentence.cells s)))%Z.
Proof.
  intros Ht. pose proof (true_sentence_bounds M s Ht) as Hb.
  split_and!; try lia.
  - by apply true_known_safes.
  - by apply true_known_mines.
  - intros Hc. by apply true_mark_safe.
  - intros Hc. by apply true_mark_mine.
Qed.

Lemma sentence_rules_sound_witness :
  true_sentence (Minesweeper.mines corner_board)
    (Sentence.mark_mine (0, 0)%Z corner_sentence).
Proof.
  apply (sentence_rules_sound (Minesweeper.mines corner_board)
           corner_sentence (0, 0)%Z).
  - vm_compute. reflexivity.
  - vm_compute. reflexivity.
Defined.

End sentence_rules.

(** ** The marks of the agent *)

Section agent_marks.
Import MinesweeperAI.
Implicit Types (ai : MinesweeperAI.t) (s : Sentence) (c : Cell) (r : ref)
  (M : gset Cell).

(** [mark_safe] and [mark_mine] of the agent apply the mark of the sentence
    to the sentences of the knowledge base, each once, and to no other
    object; afterwards the cell is in no sentence of the base. The list
    [knowledge] is as it was. *)
Theorem agent_mark_reaches_knowledge c ai r :
  store (mark_safe c ai) !! r
  = (if decide (r ∈ knowledge ai)
     then Sentence.mark_safe c <$> store ai !! r else store ai !! r)
  ∧ store (mark_mine c ai) !! r
    = (if decide (r ∈ knowledge ai)
       then Sentence.mark_mine c <$> store ai !! r else store ai !! r)
  ∧ (∀ s, kb_sentence (mark_safe c ai) r s → c ∉ Sentence.cells s)
  ∧ (∀ s, kb_sentence (mark_mine c ai) r s → c ∉ Sentence.cells s)
  ∧ knowledge (mark_safe c ai) = knowledge ai
  ∧ knowledge (mark_mine c ai) = knowledge ai
  ∧ length (store (mark_safe c ai)) = length (store ai)
  ∧ length (store (mark_mine c ai)) = length (store ai).
Proof.
  split_and!; try done.
  - apply for_each_sentence_lookup, mark_safe_idemp.
  - apply for_each_sentence_lookup, mark_mine_idemp.
  - intros s [Hr Hs]. simpl in Hr, Hs.
    rewrite for_each_sentence_lookup in Hs by apply mark_safe_idemp.
    rewrite decide_True in Hs by done.
    destruct (store ai !! r) as [s0|]; simpl in Hs; [|done].
    inversion Hs; subst. rewrite mark_safe_cells. set_solver.
  - intros s [Hr Hs]. simpl in Hr, Hs.
    rewrite for_each_sentence_lookup in Hs by apply mark_mine_idemp.
    rewrite decide_True in Hs by done.
    destruct (store ai !! r) as [s0|]; simpl in Hs; [|done].
    inversion Hs; subst. rewrite mark_mine_cells. set_solver.
  - simpl. apply for_each_sentence_length.
  - simpl. apply for_each_sentence_length.
Qed.

Lemma for_each_sentence_idemp m k (st : list Sentence) :
  (∀ s, m (m s) = m s) →
  for_each_sentence m k (for_each_sentence m k st) = for_each_sentence m k st.
Proof.
  intros Hm. apply list_eq. intros i.
  rewrite !for_each_sentence_lookup by done.
  case_decide; [|done]. destruct (st !! i); simpl; [|done]. by rewrite Hm.
Qed.

(** The marks of the agent are idempotent, and marks of two cells commute:
    the state after a series of marks does not depend on their order. *)
Theorem agent_marks_commute c c' ai :
  mark_safe c (mark_safe c ai) = mark_safe c ai
  ∧ mark_mine c (mark_mine c ai) = mark_mine c ai
  ∧ mark_safe c (mark_safe c' ai) = mark_safe c' (mark_safe c ai)
  ∧ mark_mine c (mark_mine c' ai) = mark_mine c' (mark_mine c ai)
  ∧ (c ≠ c' → mark_mine c (mark_safe c' ai) = mark_safe c' (mark_mine c ai)).
Proof.
  split_and!.
  - unfold mark_safe; simpl. f_equal; [set_solver|].
    apply for_each_sentence_idemp, mark_safe_idemp.
  - unfold mark_mine; simpl. f_equal; [set_solver|].
    apply for_each_sentence_idemp, mark_mine_idemp.
  - apply mark_safe_comm.
  - apply mark_mine_comm.
  - intros Hne. unfold mark_mine, mark_safe; simpl. f_equal.
    apply for_each_sentence_comm;
      auto using mark_mine_idemp, mark_safe_idemp.
    intros s. by apply sentence_mark_mine_safe_comm.
Qed.

(** The loops of lines 226-229 go through a set of cells; in whatever order
    the cells come, the agent ends in the same state. *)
Theorem marks_order_irrelevant (l1 l2 : list Cell) ai :
  l1 ≡ₚ l2 →
  foldl (λ ai cell, mark_safe cell ai) ai l1
  = foldl (λ ai cell, mark_safe cell ai) ai l2
  ∧ foldl (λ ai cell, mark_mine cell ai) ai l1
    = foldl (λ ai cell, mark_mine cell ai) ai l2.
Proof.
  intros Hperm. split.
  - by apply foldl_marks_permutation; [apply mark_safe_comm|].
  - by apply foldl_marks_permutation; [apply mark_mine_comm|].
Qed.

Lemma marks_order_irrelevant_witness :
  foldl (λ ai cell, mark_safe cell ai) corner_agent [(0, 0)%Z; (0, 1)%Z]
  = foldl (λ ai cell, mark_safe cell ai) corner_agent [(0, 1)%Z; (0, 0)%Z].
Proof.
  apply (marks_order_irrelevant [(0, 0)%Z; (0, 1)%Z] [(0, 1)%Z; (0, 0)%Z]
           corner_agent).
  apply perm_swap.
Defined.

(** One round of the inner loop on a store of true sentences: it returns,
    every sentence is still true, and the sentence it appends, if any, is
    new to the base, true, and has at least one cell. *)
Theorem subset_step_sound M r o ai :
  all_true M ai → r < length (store ai) → o < length (store ai) →
  ∃ ai',
    subset_step r o ai = Some ai' ∧ all_true M ai'
    ∧ (ai' = ai
       ∨ ∃ s, ai' = append s ai ∧ true_sentence M s
              ∧ Sentence.cells s ≠ ∅ ∧ in_knowledge s ai = false).
Proof.
  intros Ht Hr Ho.
  apply lookup_lt_is_Some in Hr as [A HA].
  apply lookup_lt_is_Some in Ho as [B HB].
  rewrite (subset_step_eq r o ai A B HA HB). unfold appends.
  destruct (resolves A B) eqn:Hres; simpl; [|exists ai; auto].
  destruct (in_knowledge (candidate A B) ai) eqn:Hin; simpl;
    [exists ai; auto|].
  assert (Hc : true_sentence M (candidate A B)).
  { apply resolves_spec in Hres as [_ Hsub]. apply true_candidate; eauto. }
  exists (append (candidate A B) ai). split_and!; [done| |].
  - intros r' s' Hs'. simpl in Hs'.
    apply lookup_snoc_Some in Hs' as [[_ Hs']|[_ <-]]; eauto.
  - right. exists (candidate A B). split_and!; try done.
    eapply candidate_nonempty; eauto.
Qed.

Lemma subset_step_sound_witness :
  ∃ ai',
    subset_step 0 1 corner_agent = Some ai'
    ∧ all_true (Minesweeper.mines corner_board) ai'
    ∧ (ai' = corner_agent
       ∨ ∃ s, ai' = append s corner_agent
              ∧ true_sentence (Minesweeper.mines corner_board) s
              ∧ Sentence.cells s ≠ ∅ ∧ in_knowledge s corner_agent = false).
Proof.
  apply (subset_step_sound (Minesweeper.mines corner_board) 0 1 corner_agent).
  - intros r s Hs. destruct r as [|[|r]]; simpl in Hs; inversion Hs; subst;
      vm_compute; reflexivity.
  - simpl. lia.
  - simpl. lia.
Defined.

(** Off the board: two sentence objects with the same cells and different
    counts, which no board gives, resolve to a sentence without cells, and
    the inner loop appends it when the base holds no equal one, since line 239
    tests presence alone. Two calls for one cell with different counts get the
    agent there, and leave the sentence [{} = 1] in the knowledge base. *)
Theorem contradiction_appends_empty_sentence :
  (∀ r o ai A B, store ai !! r = Some A → store ai !! o = Some B →
     Sentence.cells A = Sentence.cells B →
     Sentence.count A ≠ Sentence.count B →
     in_knowledge (candidate A B) ai = false →
     subset_step r o ai
     = Some (append (Sentence.mk ∅ (Sentence.count A - Sentence.count B)) ai))
  ∧ (∃ ai,
      add_knowledge_all clashing_play (init 3 3) = Some ai
      ∧ kb_sentence ai 3 (Sentence.mk ∅ 1))
  ∧ ¬ ∃ g, Forall (consistent g) clashing_play.
Proof.
  split_and!.
  - intros r o ai A B HA HB Hcells Hcount Hnew.
    rewrite (subset_step_eq r o ai A B HA HB). unfold appends.
    rewrite Hnew. replace (resolves A B) with true.
    + simpl. unfold candidate, Sentence.init. rewrite Hcells.
      by rewrite difference_diag_L.
    + symmetry. apply resolves_spec. split; [congruence|by rewrite Hcells].
  - eexists. split; [vm_compute; reflexivity|].
    split; [|reflexivity]. set_solver.
  - intros (g & Hobs). unfold clashing_play in Hobs.
    apply Forall_cons in Hobs as [(_ & _ & H1) Hobs].
    apply Forall_cons in Hobs as [(_ & _ & H2) _].
    simpl in H1, H2. lia.
Qed.

End agent_marks.

(** ** What the inference loop keeps *)

Section loop_invariant.
Import MinesweeperAI.
Implicit Types (ai : MinesweeperAI.t) (s : Sentence) (c : Cell) (r : ref).

(** A property [P] of the agent that the four operations of the loop keep,
    the marks for the cells [Q] that sentences hold. *)
Variable P : MinesweeperAI.t → Prop.
Variable Q : Cell → Prop.
Hypothesis cells_Q : ∀ ai r s c,
  P ai → store ai !! r = Some s → c ∈ Sentence.cells s → Q c.
Hypothesis keep_mark_safe : ∀ ai c, P ai → Q c → P (mark_safe c ai).
Hypothesis keep_mark_mine : ∀ ai c, P ai → Q c → P (mark_mine c ai).
Hypothesis keep_drop_empty : ∀ ai, P ai → P (drop_empty ai).
Hypothesis keep_append : ∀ ai r o A B,
  P ai → store ai !! r = Some A → store ai !! o = Some B →
  Sentence.cells B ⊆ Sentence.cells A → P (append (candidate A B) ai).

Lemma keep_marks_safe (l : list Cell) ai :
  (∀ c, c ∈ l → Q c) → P ai → P (foldl (λ ai cell, mark_safe cell ai) ai l).
Proof.
  revert ai. induction l as [|c l IH]; intros ai Hl HP; simpl; [done|].
  apply IH; [intros; apply Hl; by right|].
  apply keep_mark_safe; [done|apply Hl; by left].
Qed.

Lemma keep_marks_mine (l : list Cell) ai :
  (∀ c, c ∈ l → Q c) → P ai → P (foldl (λ ai cell, mark_mine cell ai) ai l).
Proof.
  revert ai. induction l as [|c l IH]; intros ai Hl HP; simpl; [done|].
  apply IH; [intros; apply Hl; by right|].
  apply keep_mark_mine; [done|apply Hl; by left].
Qed.

Lemma keep_subset_step r o ai ai' :
  P ai → subset_step r o ai = Some ai' → P ai'.
Proof.
  intros HP Hstep.
  destruct (store ai !! r) as [A|] eqn:HA;
    [|by unfold subset_step in Hstep; rewrite HA in Hstep].
  destruct (store ai !! o) as [B|] eqn:HB;
    [|by unfold subset_step in Hstep; rewrite HA, HB in Hstep].
  rewrite (subset_step_eq r o ai A B HA HB) in Hstep.
  destruct (appends A B ai) eqn:Happ; inversion Hstep; subst; [|done].
  apply andb_true_iff in Happ as [[_ Hsub]%resolves_spec _].
  by eapply keep_append.
Qed.

Lemma keep_subset_loop r fuel i ai ai' :
  P ai → subset_loop fuel r i ai = Some ai' → P ai'.
Proof.
  revert i ai. induction fuel as [|fuel IH]; intros i ai HP Hl; [done|].
  simpl in Hl. destruct (knowledge ai !! i) as [o|]; [|by inversion Hl; subst].
  destruct (subset_step r o ai) as [ai1|] eqn:Hstep; simpl in Hl; [|done].
  eapply IH; [|exact Hl]. by eapply keep_subset_step.
Qed.

Lemma keep_infer_step r ai ai' : P ai → infer_step r ai = Some ai' → P ai'.
Proof.
  intros HP Hstep.
  destruct (store ai !! r) as [s|] eqn:Hlook;
    [|by unfold infer_step in Hstep; rewrite Hlook in Hstep].
  unfold infer_step in Hstep. rewrite Hlook in Hstep.
  eapply keep_subset_loop; [|exact Hstep].
  apply keep_drop_empty, keep_marks_mine, keep_marks_safe; [| |done].
  - intros c Hc%elem_of_elements. apply (cells_Q ai r s c HP Hlook).
    revert Hc. unfold Sentence.known_mines. case_bool_decide; set_solver.
  - intros c Hc%elem_of_elements. apply (cells_Q ai r s c HP Hlook).
    revert Hc. unfold Sentence.known_safes. case_bool_decide; set_solver.
Qed.

Lemma keep_infer_loop l0 ai ai' : P ai → infer_loop l0 ai = Some ai' → P ai'.
Proof.
  revert ai. induction l0 as [|r l0 IH]; intros ai HP Hl; simpl in Hl.
  - by inversion Hl; subst.
  - destruct (infer_step r ai) as [ai1|] eqn:Hstep; simpl in Hl; [|done].
    eapply IH; [|exact Hl]. by eapply keep_infer_step.
Qed.

End loop_invariant.

(** ** [add_knowledge] on any agent *)

Section any_agent.
Import MinesweeperAI.
Implicit Types (ai : MinesweeperAI.t) (s : Sentence) (c cell : Cell) (r : ref).

(** Every call returns, on a new agent and on any agent whose references
    are to objects of the store, whatever the cells and the counts are: the
    inner loop, which runs over a list it appends to, comes to an end. *)
Theorem add_knowledge_all_returns obs ai :
  well_formed ai →
  ∃ ai', add_knowledge_all obs ai = Some ai' ∧ well_formed ai'.
Proof.
  revert ai. induction obs as [|[cell count] obs IH]; intros ai Hwf.
  - by exists ai.
  - destruct (add_knowledge_returns cell count ai Hwf) as (ai1 & Hadd & Hwf1).
    change (add_knowledge_all ((cell, count) :: obs) ai)
      with (add_knowledge cell count ai ≫= add_knowledge_all obs).
    rewrite Hadd. by apply IH.
Qed.

Lemma add_knowledge_all_returns_witness :
  ∃ ai', add_knowledge_all clashing_play corner_agent = Some ai'
         ∧ well_formed ai'.
Proof.
  apply (add_knowledge_all_returns clashing_play corner_agent).
  intros r Hr. simpl in *.
  rewrite !elem_of_cons, elem_of_nil in Hr. lia.
Defined.

Lemma grows_refl ai : grows ai ai.
Proof. split_and!; try done. intros r s Hs. by exists s. Qed.

Lemma grows_trans ai1 ai2 ai3 : grows ai1 ai2 → grows ai2 ai3 → grows ai1 ai3.
Proof.
  intros (H1 & H2 & H3 & H4 & H5 & H6) (G1 & G2 & G3 & G4 & G5 & G6).
  split_and!; [set_solver..|congruence|congruence|].
  intros r s Hs. destruct (H6 r s Hs) as (s' & Hs' & Hsub).
  destruct (G6 r s' Hs') as (s'' & Hs'' & Hsub'). exists s''.
  split; [done|set_solver].
Qed.

Lemma grows_for_each m ai :
  (∀ s, m (m s) = m s) →
  (∀ s, Sentence.cells (m s) ⊆ Sentence.cells s) →
  ∀ r s, store ai !! r = Some s →
    ∃ s', for_each_sentence m (knowledge ai) (store ai) !! r = Some s'
          ∧ Sentence.cells s' ⊆ Sentence.cells s.
Proof.
  intros Hm Hsub r s Hs. rewrite for_each_sentence_lookup, Hs by done.
  case_decide; simpl; eauto.
Qed.

Lemma grows_mark_safe c ai : grows ai (mark_safe c ai).
Proof.
  split_and!; simpl; try done; try set_solver.
  apply grows_for_each; [apply mark_safe_idemp|].
  intros s. rewrite mark_safe_cells. set_solver.
Qed.

Lemma grows_mark_mine c ai : grows ai (mark_mine c ai).
Proof.
  split_and!; simpl; try done; try set_solver.
  apply grows_for_each; [apply mark_mine_idemp|].
  intros s. rewrite mark_mine_cells. set_solver.
Qed.

Lemma grows_append s ai : grows ai (append s ai).
Proof.
  split_and!; simpl; try done.
  intros r s0 Hs. exists s0. split; [by apply lookup_app_l_Some|done].
Qed.

Lemma grows_infer_loop l0 ai ai' : infer_loop l0 ai = Some ai' → grows ai ai'.
Proof.
  apply (keep_infer_loop (grows ai) (λ _, True)); try done.
  - intros a c Ha _. eapply grows_trans; [done|apply grows_mark_safe].
  - intros a c Ha _. eapply grows_trans; [done|apply grows_mark_mine].
  - intros a r o A B Ha _ _ _. eapply grows_trans; [done|apply grows_append].
  - apply grows_refl.
Qed.

Lemma moves_made_infer_loop l0 ai ai' :
  infer_loop l0 ai = Some ai' → moves_made ai' = moves_made ai.
Proof.
  by apply (keep_infer_loop (λ a, moves_made a = moves_made ai) (λ _, True)).
Qed.

(** A call only adds: [safes] and [mines] keep their cells, [moves_made]
    gains the cell of the call and nothing else, the cell of the call is in
    [safes] afterwards, the board is the same, and every sentence object is
    still there with no cell it did not have. *)
Theorem add_knowledge_grows cell count ai :
  well_formed ai →
  ∃ ai',
    add_knowledge cell count ai = Some ai' ∧ grows ai ai'
    ∧ moves_made ai' = {[cell]} ∪ moves_made ai
    ∧ cell ∈ safes ai'.
Proof.
  intros Hwf.
  destruct (add_knowledge_returns cell count ai Hwf) as (ai' & Hadd & _).
  exists ai'. split; [done|]. unfold add_knowledge in Hadd.
  assert (G1 : grows ai (note_move cell ai)
               ∧ moves_made (note_move cell ai) = {[cell]} ∪ moves_made ai
               ∧ cell ∈ safes (note_move cell ai)).
  { unfold note_move. case_bool_decide as Hc; simpl in *.
    - split_and!; [|done|set_solver].
      eapply grows_trans; [|apply grows_mark_safe].
      split_and!; simpl; try done; [set_solver|]. intros r s Hs. by exists s.
    - split_and!; [|done..].
      split_and!; simpl; try done; [set_solver|]. intros r s Hs. by exists s. }
  destruct G1 as (G1 & Hm1 & Hc1).
  assert (G2 : grows (note_move cell ai)
                 (add_sentence cell count (note_move cell ai))
               ∧ moves_made (add_sentence cell count (note_move cell ai))
                 = moves_made (note_move cell ai)).
  { unfold add_sentence. destruct (negb _ && _).
    - split; [apply grows_append|done].
    - split; [apply grows_refl|done]. }
  destruct G2 as (G2 & Hm2).
  pose proof (grows_infer_loop _ _ _ Hadd) as G3.
  pose proof (moves_made_infer_loop _ _ _ Hadd) as Hm3.
  pose proof (grows_trans _ _ _ G1 (grows_trans _ _ _ G2 G3)) as G.
  split_and!; [done|congruence|].
  destruct (grows_trans _ _ _ G2 G3) as (Hs & _). set_solver.
Qed.

Lemma add_knowledge_grows_witness :
  ∃ ai',
    add_knowledge (0, 1)%Z 1 corner_agent = Some ai' ∧ grows corner_agent ai'
    ∧ moves_made ai' = {[ (0, 1)%Z ]} ∪ moves_made corner_agent
    ∧ (0, 1)%Z ∈ safes ai'.
Proof.
  apply (add_knowledge_grows (0, 1)%Z 1 corner_agent).
  intros r Hr. simpl in *.
  rewrite !elem_of_cons, elem_of_nil in Hr. lia.
Defined.

End any_agent.

(** ** The agent stays on the board *)

Section board.
Import MinesweeperAI.
Implicit Types (ai : MinesweeperAI.t) (s : Sentence) (c cell : Cell) (r : ref)
  (h w : Z).

Lemma in_range_spec (x n : Z) : in_range x n = true ↔ (0 ≤ x < n)%Z.
Proof.
  unfold in_range. rewrite andb_true_iff, !bool_decide_eq_true. done.
Qed.

Lemma on_board_for_each h w m ai :
  (∀ s, m (m s) = m s) →
  (∀ s, Sentence.cells (m s) ⊆ Sentence.cells s) →
  (∀ r s c, store ai !! r = Some s → c ∈ Sentence.cells s → in_bounds h w c) →
  ∀ r s c, for_each_sentence m (knowledge ai) (store ai) !! r = Some s →
    c ∈ Sentence.cells s → in_bounds h w c.
Proof.
  intros Hm Hsub Hst r s' c Hs' Hc.
  apply for_each_sentence_lookup_Some in Hs' as (s & Hs & [[_ ->]|[_ ->]]);
    [| |done].
  - eapply Hst; [done|]. by apply Hsub.
  - by eapply Hst.
Qed.

Lemma on_board_mark_safe h w c ai :
  on_board h w ai → in_bounds h w c → on_board h w (mark_safe c ai).
Proof.
  intros (Hh & Hw & Hsets & Hst) Hc. split_and!; simpl; try done.
  - intros c' Hc'. destruct (decide (c' = c)) as [->|]; [done|].
    apply Hsets. set_solver.
  - apply on_board_for_each; [apply mark_safe_idemp| |done].
    intros s. rewrite mark_safe_cells. set_solver.
Qed.

Lemma on_board_mark_mine h w c ai :
  on_board h w ai → in_bounds h w c → on_board h w (mark_mine c ai).
Proof.
  intros (Hh & Hw & Hsets & Hst) Hc. split_and!; simpl; try done.
  - intros c' Hc'. destruct (decide (c' = c)) as [->|]; [done|].
    apply Hsets. set_solver.
  - apply on_board_for_each; [apply mark_mine_idemp| |done].
    intros s. rewrite mark_mine_cells. set_solver.
Qed.

Lemma on_board_append h w s ai :
  on_board h w ai → (∀ c, c ∈ Sentence.cells s → in_bounds h w c) →
  on_board h w (append s ai).
Proof.
  intros (Hh & Hw & Hsets & Hst) Hs. split_and!; simpl; try done.
  intros r s' c Hs' Hc.
  apply lookup_snoc_Some in Hs' as [[_ Hs']|[_ <-]]; eauto.
Qed.

Lemma on_board_infer_loop h w l0 ai ai' :
  on_board h w ai → infer_loop l0 ai = Some ai' → on_board h w ai'.
Proof.
  apply (keep_infer_loop (on_board h w) (in_bounds h w)).
  - intros a r s c (_ & _ & _ & Hst). apply Hst.
  - intros a c. apply on_board_mark_safe.
  - intros a c. apply on_board_mark_mine.
  - done.
  - intros a r o A B Ha HA _ _. apply on_board_append; [done|].
    intros c Hc. destruct Ha as (_ & _ & _ & Hst). apply (Hst r A c HA).
    simpl in Hc. set_solver.
Qed.

Lemma on_board_add_knowledge h w cell count ai ai' :
  on_board h w ai → in_bounds h w cell →
  add_knowledge cell count ai = Some ai' → on_board h w ai'.
Proof.
  intros Hb Hcell. unfold add_knowledge.
  assert (H1 : on_board h w (note_move cell ai)).
  { unfold note_move.
    assert (H0 : on_board h w
      (mk (height ai) (width ai) ({[cell]} ∪ moves_made ai) (mines ai)
          (safes ai) (knowledge ai) (store ai))).
    { destruct Hb as (Hh & Hw & Hsets & Hst). split_and!; simpl; try done.
      intros c Hc. destruct (decide (c = cell)) as [->|]; [done|].
      apply Hsets. set_solver. }
    case_bool_decide; [by apply on_board_mark_safe|done]. }
  assert (H2 : on_board h w (add_sentence cell count (note_move cell ai))).
  { unfold add_sentence. destruct (negb _ && _); [|done].
    apply on_board_append; [done|]. simpl. intros c Hc.
    apply elem_of_difference in Hc as [Hc _].
    apply elem_of_neighbour_cells in Hc as (_ & Hr & Hcol & _).
    destruct H1 as (Hh & Hw & _). rewrite Hh in Hr. rewrite Hw in Hcol.
    apply in_range_spec in Hr, Hcol. done. }
  by apply on_board_infer_loop.
Qed.

Lemma on_board_add_knowledge_all h w obs ai :
  Forall (λ o : observation, in_bounds h w o.1) obs →
  well_formed ai → on_board h w ai →
  ∃ ai', add_knowledge_all obs ai = Some ai' ∧ on_board h w ai'.
Proof.
  intros Hobs. revert ai.
  induction Hobs as [|[cell count] obs Hc _ IH]; intros ai Hwf Hb.
  - by exists ai.
  - destruct (add_knowledge_returns cell count ai Hwf) as (ai1 & Hadd & Hwf1).
    change (add_knowledge_all ((cell, count) :: obs) ai)
      with (add_knowledge cell count ai ≫= add_knowledge_all obs).
    rewrite Hadd. apply IH; [done|].
    by apply (on_board_add_knowledge h w cell count ai).
Qed.

Lemma on_board_init h w : on_board h w (init h w).
Proof. split_and!; simpl; try done; set_solver. Qed.

(** Calls for cells of the board, whatever the counts, leave every cell the
    agent holds on the board: the cells of [safes], [mines] and [moves_made],
    and the cells of every sentence. *)
Theorem add_knowledge_stays_on_board h w obs :
  Forall (λ o : observation, in_bounds h w o.1) obs →
  ∃ ai, add_knowledge_all obs (init h w) = Some ai ∧ on_board h w ai.
Proof.
  intros Hobs. apply on_board_add_knowledge_all; [done| |apply on_board_init].
  intros r Hr. by apply elem_of_nil in Hr.
Qed.

Lemma add_knowledge_stays_on_board_witness :
  ∃ ai, add_knowledge_all clashing_play (init 3 3) = Some ai
        ∧ on_board 3 3 ai.
Proof.
  apply (add_knowledge_stays_on_board 3 3 clashing_play).
  repeat apply Forall_cons_2; try apply Forall_nil_2;
    unfold in_bounds; simpl; lia.
Defined.

End board.

(** ** Play on a consistent board *)

Section consistent_play.
Import MinesweeperAI.
Implicit Types (ai : MinesweeperAI.t) (s : Sentence) (c cell : Cell) (r : ref)
  (g : Minesweeper.t) (M : gset Cell).

(** What the agent concludes is right: after any sequence of calls whose
    observations the board gives, no cell of [safes] holds a mine, every
    cell of [mines] holds one, and the count of every sentence of the
    knowledge base is the number of its cells that hold a mine. *)
Theorem conclusions_are_right g obs :
  Forall (consistent g) obs →
  ∃ ai,
    add_knowledge_all obs (init (Minesweeper.height g) (Minesweeper.width g))
    = Some ai
    ∧ (∀ c, c ∈ safes ai → Minesweeper.is_mine g c = false)
    ∧ (∀ c, c ∈ mines ai → Minesweeper.is_mine g c = true)
    ∧ (∀ r s, kb_sentence ai r s →
         Sentence.count s
         = Z.of_nat (size (filter (λ c, Minesweeper.is_mine g c = true)
                             (Sentence.cells s)))).
Proof.
  intros Hobs.
  destruct (agrees_add_knowledge_all g obs _ (agrees_init g) Hobs)
    as (ai & Hrun & [_ Htrue _ _ Hsafes Hmines] & _).
  exists ai. unfold Minesweeper.is_mine. split_and!; [done| | |].
  - intros c Hc. apply bool_decide_eq_false. set_solver.
  - intros c Hc. apply bool_decide_eq_true. set_solver.
  - intros r s [_ Hs]. rewrite (Htrue r s Hs). do 2 f_equal.
    apply set_eq. intros c. rewrite elem_of_filter, bool_decide_eq_true.
    set_solver.
Qed.

Lemma conclusions_are_right_witness :
  ∃ ai,
    add_knowledge_all corner_play (init 2 3) = Some ai
    ∧ (∀ c, c ∈ safes ai → Minesweeper.is_mine corner_board c = false)
    ∧ (∀ c, c ∈ mines ai → Minesweeper.is_mine corner_board c = true)
    ∧ (∀ r s, kb_sentence ai r s →
         Sentence.count s
         = Z.of_nat (size (filter
                             (λ c, Minesweeper.is_mine corner_board c = true)
                             (Sentence.cells s)))).
Proof.
  apply (conclusions_are_right corner_board corner_play).
  repeat apply Forall_cons_2; try apply Forall_nil_2;
    (split; [unfold in_bounds; simpl; lia|split; vm_compute; reflexivity]).
Defined.

(** The move [make_safe_move] proposes after such calls, in whatever order
    it goes through [safes], is a cell of the board that holds no mine and
    has not been played. *)
Theorem safe_move_is_safe g obs :
  Forall (consistent g) obs →
  ∃ ai,
    add_knowledge_all obs (init (Minesweeper.height g) (Minesweeper.width g))
    = Some ai
    ∧ ∀ order c,
        order ≡ₚ elements (safes ai) →
        (make_safe_move order ai).1 = Some c →
        Minesweeper.is_mine g c = false
        ∧ in_bounds (Minesweeper.height g) (Minesweeper.width g) c
        ∧ c ∉ moves_made ai.
Proof.
  intros Hobs.
  destruct (agrees_add_knowledge_all g obs _ (agrees_init g) Hobs)
    as (ai & Hrun & [_ _ _ _ Hsafes _] & _).
  destruct (on_board_add_knowledge_all (Minesweeper.height g)
              (Minesweeper.width g) obs
              (init (Minesweeper.height g) (Minesweeper.width g)))
    as (ai2 & Hrun2 & (_ & _ & Hsets & _)).
  { eapply Forall_impl; [exact Hobs|]. by intros o (? & _). }
  { intros r Hr. by apply elem_of_nil in Hr. }
  { apply on_board_init. }
  rewrite Hrun in Hrun2. inversion Hrun2; subst ai2.
  exists ai. split; [done|]. intros order c Hord Hmove.
  unfold make_safe_move in Hmove; simpl in Hmove.
  apply find_some in Hmove as [Hin Hp].
  apply list_elem_of_In in Hin. rewrite Hord, elem_of_elements in Hin.
  apply bool_decide_eq_true in Hp. split_and!; [|apply Hsets; set_solver|done].
  unfold Minesweeper.is_mine. apply bool_decide_eq_false. set_solver.
Qed.

Lemma safe_move_is_safe_witness :
  ∃ ai,
    add_knowledge_all corner_play (init 2 3) = Some ai
    ∧ ∀ order c,
        order ≡ₚ elements (safes ai) →
        (make_safe_move order ai).1 = Some c →
        Minesweeper.is_mine corner_board c = false
        ∧ in_bounds 2 3 c
        ∧ c ∉ moves_made ai.
Proof.
  apply (safe_move_is_safe corner_board corner_play).
  repeat apply Forall_cons_2; try apply Forall_nil_2;
    (split; [unfold in_bounds; simpl; lia|split; vm_compute; reflexivity]).
Defined.

Lemma no_empty_sentence_drop_empty ai : no_empty_sentence (drop_empty ai).
Proof.
  intros r s [Hr Hs]. apply elem_of_drop_empty in Hr as [_ Hr].
  change (store (drop_empty ai)) with (store ai) in Hs.
  unfold sentence_at in Hr. rewrite Hs in Hr.
  apply bool_decide_eq_true in Hr. intros Hempty. rewrite Hempty in Hr.
  rewrite size_empty in Hr. lia.
Qed.

Lemma no_empty_sentence_subset_step M r o ai ai' :
  sound M ai → no_empty_sentence ai → subset_step r o ai = Some ai' →
  no_empty_sentence ai'.
Proof.
  intros Hs Hne Hstep.
  destruct (store ai !! r) as [A|] eqn:HA;
    [|by unfold subset_step in Hstep; rewrite HA in Hstep].
  destruct (store ai !! o) as [B|] eqn:HB;
    [|by unfold subset_step in Hstep; rewrite HA, HB in Hstep].
  rewrite (subset_step_eq r o ai A B HA HB) in Hstep.
  destruct (appends A B ai) eqn:Happ; inversion Hstep; subst; [|done].
  apply andb_true_iff in Happ as [Hres _].
  intros r' s' [Hr' Hs']. simpl in Hr', Hs'.
  apply lookup_snoc_Some in Hs' as [[Hlt Hs']|[_ <-]].
  - apply (Hne r' s'). split; [|done].
    apply elem_of_app in Hr' as [Hr'|Hr']; [done|].
    apply list_elem_of_singleton in Hr'. lia.
  - destruct Hs as [_ Htrue _ _ _ _]. eapply candidate_nonempty; eauto.
Qed.

Lemma no_empty_sentence_subset_loop M r fuel i ai ai' :
  sound M ai → no_empty_sentence ai → subset_loop fuel r i ai = Some ai' →
  no_empty_sentence ai'.
Proof.
  revert i ai. induction fuel as [|fuel IH]; intros i ai Hs Hne Hl; [done|].
  simpl in Hl. destruct (knowledge ai !! i) as [o|]; [|by inversion Hl; subst].
  destruct (subset_step r o ai) as [ai1|] eqn:Hstep; simpl in Hl; [|done].
  eapply IH; [| |exact Hl].
  - by apply (sound_subset_step M) in Hstep as (? & _).
  - by eapply no_empty_sentence_subset_step.
Qed.

Lemma no_empty_sentence_infer_step M r ai ai' :
  sound M ai → infer_step r ai = Some ai' → no_empty_sentence ai'.
Proof.
  intros Hs Hstep.
  destruct (store ai !! r) as [s|] eqn:Hlook;
    [|by unfold infer_step in Hstep; rewrite Hlook in Hstep].
  unfold infer_step in Hstep. rewrite Hlook in Hstep.
  eapply (no_empty_sentence_subset_loop M); [| |exact Hstep].
  - assert (Ht : true_sentence M s) by (destruct Hs; eauto).
    apply sound_drop_empty, sound_marks_mine, sound_marks_safe; [| |done].
    + intros c Hc%elem_of_elements. by eapply true_known_mines.
    + intros c Hc%elem_of_elements. by eapply true_known_safes.
  - apply no_empty_sentence_drop_empty.
Qed.

Lemma no_empty_sentence_infer_loop M l0 ai ai' :
  sound M ai → (∀ r, r ∈ l0 → r < length (store ai)) →
  no_empty_sentence ai ∨ l0 ≠ [] →
  infer_loop l0 ai = Some ai' → no_empty_sentence ai'.
Proof.
  revert ai. induction l0 as [|r l0 IH]; intros ai Hs Hl0 Hor Hl; simpl in Hl.
  - inversion Hl; subst. by destruct Hor.
  - destruct (infer_step_sound M r ai) as (ai1 & Hstep & Hs1 & Hlen & _);
      [done|apply Hl0; by left|].
    rewrite Hstep in Hl. simpl in Hl.
    apply (IH ai1); [done| | |done].
    + intros r' Hr'. specialize (Hl0 r'). rewrite elem_of_cons in Hl0.
      specialize (Hl0 (or_intror Hr')). lia.
    + left. by apply (no_empty_sentence_infer_step M r ai ai1).
Qed.

(** After any sequence of calls whose observations the board gives, no
    sentence of the knowledge base is without cells: what the marks have
    emptied is dropped, and subset-resolution appends nothing empty. *)
Theorem no_empty_sentence_is_left g obs :
  Forall (consistent g) obs →
  ∃ ai,
    add_knowledge_all obs (init (Minesweeper.height g) (Minesweeper.width g))
    = Some ai
    ∧ no_empty_sentence ai.
Proof.
  intros Hobs.
  assert (Hgen : ∀ ai, agrees g ai → no_empty_sentence ai →
            ∃ ai', add_knowledge_all obs ai = Some ai' ∧ no_empty_sentence ai').
  { induction Hobs as [|[cell count] obs Hc _ IH]; intros ai Ha Hne.
    - by exists ai.
    - destruct (agrees_add_knowledge g cell count ai Ha Hc) as (ai1 & Hadd & Ha1).
      change (add_knowledge_all ((cell, count) :: obs) ai)
        with (add_knowledge cell count ai ≫= add_knowledge_all obs).
      rewrite Hadd. apply IH; [done|].
      unfold add_knowledge in Hadd.
      assert (Ha2 : agrees g (add_sentence cell count (note_move cell ai))).
      { apply agrees_add_sentence; [|done].
        apply agrees_note_move; [done|]. by destruct Hc as (_ & ? & _). }
      destruct Ha2 as (Hs2 & _).
      eapply (no_empty_sentence_infer_loop (Minesweeper.mines g));
        [exact Hs2|by destruct Hs2| |exact Hadd].
      destruct (knowledge (add_sentence cell count (note_move cell ai)))
        as [|r0 k] eqn:Hk; [|by right].
      left. intros r s [Hr _]. rewrite Hk in Hr. by apply elem_of_nil in Hr. }
  apply Hgen; [apply agrees_init|].
  intros r s [Hr _]. by apply elem_of_nil in Hr.
Qed.

Lemma no_empty_sentence_is_left_witness :
  ∃ ai, add_knowledge_all corner_play (init 2 3) = Some ai
        ∧ no_empty_sentence ai.
Proof.
  apply (no_empty_sentence_is_left corner_board corner_play).
  repeat apply Forall_cons_2; try apply Forall_nil_2;
    (split; [unfold in_bounds; simpl; lia|split; vm_compute; reflexivity]).
Defined.

End consistent_play.

(** ** The count the board gives *)

Section nearby.
Import MinesweeperAI.
Implicit Types (cell d : Cell) (g : Minesweeper.t).

Lemma length_block cell : length (Minesweeper.block cell) = 9.
Proof. by destruct cell. Qed.

Lemma block_adjacent cell d :
  d ∈ Minesweeper.block cell ∧ d ≠ cell ↔ adjacent cell d.
Proof.
  rewrite elem_of_block, !elem_of_range3. unfold adjacent. split.
  - intros [[H1 H2] Hne]. split; [done|lia].
  - intros (Hne & H1 & H2). split; [|done]. lia.
Qed.

(** [nearby_mines] counts every mine next to the cell once: it is the
    number of mines of the board among the up to eight cells around the
    cell, between 0 and 8, and the cell itself is never counted. *)
Theorem nearby_mines_counts_adjacent_mines g cell :
  Minesweeper.nearby_mines g cell
  = Z.of_nat (size (filter
      (λ d, adjacent cell d
            ∧ in_bounds (Minesweeper.height g) (Minesweeper.width g) d)
      (Minesweeper.mines g)))
  ∧ (0 ≤ Minesweeper.nearby_mines g cell ≤ 8)%Z.
Proof.
  unfold Minesweeper.nearby_mines. split.
  - f_equal. rewrite <- (size_list_to_set (C := gset Cell)).
    2:{ apply NoDup_ListNoDup, List.NoDup_filter, NoDup_ListNoDup, NoDup_block. }
    f_equal. apply set_eq. intros d.
    rewrite elem_of_list_to_set, list_elem_of_In, filter_In, <- list_elem_of_In.
    rewrite elem_of_filter, <- block_adjacent.
    rewrite !andb_true_iff, negb_true_iff, bool_decide_eq_false, !in_range_spec.
    unfold Minesweeper.is_mine, in_bounds. rewrite bool_decide_eq_true. tauto.
  - split; [lia|].
    set (p := λ d : Cell, negb (bool_decide (d = cell))
                && (in_range d.1 (Minesweeper.height g)
                    && in_range d.2 (Minesweeper.width g))
                && Minesweeper.is_mine g d).
    pose proof (List.filter_length p (Minesweeper.block cell)) as Hlen.
    rewrite length_block in Hlen.
    assert (Hcell : In cell (List.filter (λ x, negb (p x))
                               (Minesweeper.block cell))).
    { apply filter_In. split.
      - apply list_elem_of_In, elem_of_block. rewrite !elem_of_range3. lia.
      - unfold p. by rewrite bool_decide_eq_true_2. }
    change (Z.of_nat (length (List.filter p (Minesweeper.block cell))) ≤ 8)%Z.
    destruct (List.filter (λ x, negb (p x)) (Minesweeper.block cell));
      [done|]. cbn [length] in Hlen. lia.
Qed.

End nearby.

(** ** The move [make_random_move] returns *)

Section random_move_exact.
Import MinesweeperAI.
Implicit Types (ai : MinesweeperAI.t) (rng : nat → Z).

Lemma sample_loop_exact rng ai (fuel j p : nat) :
  (0 < height ai)%Z → (0 < width ai)%Z →
  fuel + j = 10 → j < 10 → p = 2 * S j →
  sample_loop fuel rng ai (sample rng ai j) (Z.of_nat j) p
  = match List.find (λ k, negb (excluded ai (sample rng ai k))) (seq j fuel) with
    | Some k => Return (sample rng ai k, Z.of_nat k)
    | None => Return (sample rng ai 10, 10%Z)
    end.
Proof.
  intros Hh Hw. revert j p.
  induction fuel as [|fuel IH]; intros j p Hj Hlt Hp; [lia|].
  cbn [sample_loop seq List.find].
  destruct (excluded ai (sample rng ai j)) eqn:He; cbn [negb]; [|done].
  unfold randrange.
  rewrite (bool_decide_eq_true_2 (0 < height ai)%Z),
    (bool_decide_eq_true_2 (0 < width ai)%Z) by done.
  cbn [mbind outcome_bind].
  assert (Hs : ((rng p `mod` height ai)%Z, (rng (S p) `mod` width ai)%Z)
               = sample rng ai (S j)).
  { unfold sample. subst p. done. }
  rewrite Hs. case_bool_decide as Hc.
  - assert (fuel = 0) as -> by lia. cbn [seq List.find].
    replace (S j) with 10 by lia. do 2 f_equal. lia.
  - replace (Z.of_nat j + 1)%Z with (Z.of_nat (S j)) by lia.
    apply IH; lia.
Qed.

(** On a board with a row and a column, [make_random_move] returns the
    first of its first ten draws that is neither a known mine nor played.
    When all ten are excluded it draws an eleventh cell, ignores it, and
    returns the first cell of the row-major scan that is not excluded, or
    [None]. *)
Theorem make_random_move_exact rng ai :
  (0 < height ai)%Z → (0 < width ai)%Z →
  make_random_move rng ai
  = Return (match first_free_sample rng ai with
            | Some j => Some (sample rng ai j)
            | None => List.find (λ cell, negb (excluded ai cell)) (board_cells ai)
            end).
Proof.
  intros Hh Hw. unfold make_random_move, randrange.
  rewrite (bool_decide_eq_true_2 (0 < height ai)%Z),
    (bool_decide_eq_true_2 (0 < width ai)%Z) by done.
  cbn [mbind outcome_bind].
  pose proof (sample_loop_exact rng ai 10 0 2 Hh Hw) as Hl.
  change (sample rng ai 0)
    with (rng 0%nat `mod` height ai, rng 1%nat `mod` width ai)%Z in Hl.
  change (Z.of_nat 0) with 0%Z in Hl.
  rewrite Hl by lia. clear Hl. unfold first_free_sample.
  destruct (List.find _ (seq 0 10)) as [k|] eqn:Hf; cbn [mbind outcome_bind].
  - apply find_some in Hf as [Hin _]. apply in_seq in Hin.
    by rewrite bool_decide_eq_true_2 by lia.
  - by rewrite bool_decide_eq_false_2 by lia.
Qed.

Lemma make_random_move_exact_witness :
  make_random_move (λ _, 0%Z) agent_with_safe_move
  = Return (match first_free_sample (λ _, 0%Z) agent_with_safe_move with
            | Some j => Some (sample (λ _, 0%Z) agent_with_safe_move j)
            | None => List.find (λ cell, negb (excluded agent_with_safe_move cell))
                        (board_cells agent_with_safe_move)
            end).
Proof.
  apply (make_random_move_exact (λ _, 0%Z) agent_with_safe_move); simpl; lia.
Defined.

End random_move_exact.

(** ** The first call on a new agent *)

Section first_call.
Import MinesweeperAI.
Implicit Types (ai : MinesweeperAI.t) (s : Sentence) (c cell : Cell)
  (h w : Z) (N : gset Cell).

Lemma elem_of_around h w cell d :
  d ∈ around h w cell ↔ adjacent cell d ∧ in_bounds h w d.
Proof.
  unfold around.
  rewrite elem_of_list_to_set, list_elem_of_In, filter_In, <- list_elem_of_In.
  rewrite bool_decide_eq_true, <- block_adjacent. tauto.
Qed.

Lemma sentence_mark_safe_eq c s :
  Sentence.mark_safe c s
  = Sentence.mk (Sentence.cells s ∖ {[c]}) (Sentence.count s).
Proof.
  unfold Sentence.mark_safe. case_bool_decide; [done|].
  destruct s as [X n]; simpl in *. f_equal. set_solver.
Qed.

(** The loops of marks on an agent that holds one sentence. *)
Lemma marks_safe_one (l : list Cell) h w mv mi sf X n :
  foldl (λ ai cell, mark_safe cell ai)
    (mk h w mv mi sf [0] [Sentence.mk X n]) l
  = mk h w mv mi (list_to_set l ∪ sf) [0] [Sentence.mk (X ∖ list_to_set l) n].
Proof.
  revert sf X. induction l as [|c l IH]; intros sf X; simpl.
  - f_equal; [set_solver|]. do 2 f_equal. set_solver.
  - unfold mark_safe at 2. simpl. unfold for_each_sentence. simpl.
    rewrite sentence_mark_safe_eq. simpl. rewrite IH.
    f_equal; [set_solver|]. do 2 f_equal. set_solver.
Qed.

Lemma marks_mine_one (l : list Cell) h w mv mi sf X n :
  NoDup l → (∀ c, c ∈ l → c ∈ X) →
  foldl (λ ai cell, mark_mine cell ai)
    (mk h w mv mi sf [0] [Sentence.mk X n]) l
  = mk h w mv (list_to_set l ∪ mi) sf [0]
       [Sentence.mk (X ∖ list_to_set l) (n - Z.of_nat (length l))].
Proof.
  intros Hnd. revert mi X n.
  induction Hnd as [|c l Hc Hnd IH]; intros mi X n Hin; simpl.
  - f_equal; [set_solver|]. do 2 f_equal; [set_solver|lia].
  - unfold mark_mine at 2. simpl. unfold for_each_sentence. simpl.
    rewrite mark_mine_elem by (simpl; apply Hin; by left). simpl.
    rewrite IH.
    + f_equal; [set_solver|]. do 2 f_equal; [set_solver|lia].
    + intros c' Hc'. apply elem_of_difference. split; [apply Hin; by right|].
      intros ->%elem_of_singleton. done.
Qed.

Lemma drop_empty_one_empty h w mv mi sf n :
  drop_empty (mk h w mv mi sf [0] [Sentence.mk ∅ n])
  = mk h w mv mi sf [] [Sentence.mk ∅ n].
Proof.
  unfold drop_empty, set_knowledge.
  cbn [knowledge store height width moves_made mines safes List.filter].
  unfold sentence_at.
  change ([Sentence.mk ∅ n] !! 0) with (Some (Sentence.mk ∅ n)).
  cbn [Sentence.cells]. by rewrite size_empty.
Qed.

Lemma drop_empty_one h w mv mi sf N n :
  N ≠ ∅ →
  drop_empty (mk h w mv mi sf [0] [Sentence.mk N n])
  = mk h w mv mi sf [0] [Sentence.mk N n].
Proof.
  intros HN. unfold drop_empty, set_knowledge.
  cbn [knowledge store height width moves_made mines safes List.filter].
  unfold sentence_at.
  change ([Sentence.mk N n] !! 0) with (Some (Sentence.mk N n)).
  cbn [Sentence.cells]. rewrite bool_decide_eq_true_2; [done|].
  assert (size N ≠ 0); [|lia]. by intros ?%size_empty_inv%leibniz_equiv.
Qed.

(** The inference loop on an agent that holds one sentence with cells. *)
Lemma infer_loop_one h w mv mi sf N n :
  N ≠ ∅ →
  infer_loop [0] (mk h w mv mi sf [0] [Sentence.mk N n])
  = Some (if decide (n = 0%Z)
          then mk h w mv mi (N ∪ sf) [] [Sentence.mk ∅ 0]
          else if decide (n = Z.of_nat (size N))
               then mk h w mv (N ∪ mi) sf [] [Sentence.mk ∅ 0]
               else mk h w mv mi sf [0] [Sentence.mk N n]).
Proof.
  intros HN.
  assert (Hsz : size N ≠ 0) by by intros ?%size_empty_inv%leibniz_equiv.
  cbn [infer_loop]. unfold infer_step.
  change (store (mk h w mv mi sf [0] [Sentence.mk N n]) !! 0)
    with (Some (Sentence.mk N n)).
  cbn [mbind option_bind].
  unfold Sentence.known_safes, Sentence.known_mines.
  cbn [Sentence.cells Sentence.count].
  destruct (decide (n = 0%Z)) as [->|Hn0].
  - rewrite (bool_decide_eq_true_2 (0 = 0)%Z) by done.
    rewrite (bool_decide_eq_false_2 (0%Z = Z.of_nat (size N))) by lia.
    cbn [fst]. rewrite elements_empty. cbn [foldl].
    rewrite marks_safe_one, list_to_set_elements_L, difference_diag_L.
    by rewrite drop_empty_one_empty.
  - rewrite (bool_decide_eq_false_2 (n = 0%Z)) by done.
    cbn [fst]. rewrite elements_empty. cbn [foldl].
    destruct (decide (n = Z.of_nat (size N))) as [->|Hn].
    + rewrite bool_decide_eq_true_2 by done. cbn [fst].
      rewrite marks_mine_one;
        [|apply NoDup_elements|by intros c ?%elem_of_elements].
      rewrite list_to_set_elements_L, difference_diag_L.
      replace (Z.of_nat (size N) - Z.of_nat (length (elements N)))%Z
        with 0%Z by (unfold size, set_size; simpl; lia).
      by rewrite drop_empty_one_empty.
    + rewrite bool_decide_eq_false_2 by done. cbn [fst].
      rewrite elements_empty. cbn [foldl].
      rewrite drop_empty_one by done.
      unfold subset_fuel. cbn [knowledge length Nat.mul Nat.add].
      cbn [subset_loop]. cbn [knowledge lookup list_lookup].
      unfold subset_step. cbn [store lookup list_lookup mbind option_bind].
      by rewrite eqb_refl.
Qed.

(** The first observation on a new agent, for a cell with cells around it
    on the board: with count 0 every cell around is marked safe, with the
    count equal to their number every one is marked a mine, and in both
    cases the knowledge base is left empty; with any other count the base
    holds the one sentence of the observation and nothing is marked but the
    cell played. Without a cell around, nothing is recorded. *)
Theorem first_observation h w cell count :
  ∃ ai,
    add_knowledge cell count (init h w) = Some ai
    ∧ moves_made ai = {[cell]}
    ∧ (around h w cell = ∅ →
       safes ai = {[cell]} ∧ mines ai = ∅ ∧ knowledge ai = [])
    ∧ (around h w cell ≠ ∅ → count = 0%Z →
       safes ai = {[cell]} ∪ around h w cell ∧ mines ai = ∅
       ∧ knowledge ai = [])
    ∧ (around h w cell ≠ ∅ → count ≠ 0%Z →
       count = Z.of_nat (size (around h w cell)) →
       safes ai = {[cell]} ∧ mines ai = around h w cell ∧ knowledge ai = [])
    ∧ (around h w cell ≠ ∅ → count ≠ 0%Z →
       count ≠ Z.of_nat (size (around h w cell)) →
       safes ai = {[cell]} ∧ mines ai = ∅
       ∧ ∃ r, knowledge ai = [r]
              ∧ store ai !! r = Some (Sentence.mk (around h w cell) count)).
Proof.
  assert (HN : neighbour_cells (mk h w {[cell]} ∅ {[cell]} [] []) cell
               = around h w cell).
  { apply set_eq. intros d.
    rewrite elem_of_neighbour_cells, elem_of_around, <- block_adjacent.
    simpl. rewrite !in_range_spec, elem_of_singleton. unfold in_bounds.
    tauto. }
  generalize dependent (around h w cell). intros N HN.
  set (ai1 := mk h w {[cell]} ∅ {[cell]} [] []) in *.
  assert (H1 : note_move cell (init h w) = ai1).
  { unfold note_move, init. simpl.
    rewrite bool_decide_eq_true_2 by set_solver.
    unfold mark_safe, ai1. simpl. f_equal; set_solver. }
  assert (H2 : add_sentence cell count ai1
               = if decide (N = ∅) then ai1
                 else mk h w {[cell]} ∅ {[cell]} [0] [Sentence.mk N count]).
  { unfold add_sentence. cbv zeta. rewrite HN.
    match goal with
    | |- context [Sentence.init (N ∖ ?k) _] =>
        assert (Hk : k = ∅)
          by (apply set_eq; intros d; rewrite elem_of_filter; set_solver);
        rewrite Hk
    end.
    rewrite size_empty. unfold Sentence.init, in_knowledge.
    change (knowledge ai1) with (@nil nat).
    change (Z.of_nat 0) with 0%Z. rewrite Z.sub_0_r.
    cbn [Sentence.cells existsb negb andb].
    rewrite difference_empty_L.
    case_decide as HNe.
    - by rewrite bool_decide_eq_false_2 by (intros Hne; by apply Hne).
    - by rewrite bool_decide_eq_true_2 by done. }
  unfold add_knowledge. rewrite H1, H2.
  destruct (decide (N = ∅)) as [HNe|HNe].
  - exists ai1. split_and!; try done.
  - cbn [knowledge]. rewrite infer_loop_one by done.
    destruct (decide (count = 0%Z)) as [->|Hc0];
      [|destruct (decide (count = Z.of_nat (size N))) as [Hc|Hc]];
      eexists; (split; [reflexivity|]); cbn [moves_made safes mines knowledge];
      split_and!; try done; try (intros; set_solver).
Qed.

End first_call.

(** ** The game object *)

Section game.
Implicit Types (g : Game.t) (cell : Cell) (h w target : Z) (rng : nat → Z)
  (ms : gset Cell) (b : list (list bool)).

Lemma game_randrange_Ok (n : Z) rng (p : nat) (x : Z) :
  Game.randrange n rng p = Game.Ok x → (0 ≤ x < n)%Z.
Proof.
  unfold Game.randrange, MinesweeperAI.randrange.
  case_bool_decide as Hn; [|done]. intros [= <-].
  apply Z.mod_pos_bound. lia.
Qed.

Lemma game_randrange_empty (n : Z) rng (p : nat) :
  (n ≤ 0)%Z → Game.randrange n rng p = Game.Raise Game.ValueError.
Proof.
  intros Hn. unfold Game.randrange, MinesweeperAI.randrange.
  by rewrite bool_decide_eq_false_2 by lia.
Qed.

Lemma index_in_range {A} (l : list A) (i : Z) :
  (0 ≤ i < Z.of_nat (length l))%Z → Game.index l i = Game.Ok (Z.to_nat i).
Proof.
  intros Hi. unfold Game.index. cbv zeta.
  rewrite (bool_decide_eq_false_2 (i < 0)%Z) by lia.
  by rewrite bool_decide_eq_true_2 by lia.
Qed.

Lemma index_from_end {A} (l : list A) (i : Z) :
  (- Z.of_nat (length l) ≤ i < 0)%Z →
  Game.index l i = Game.Ok (Z.to_nat (i + Z.of_nat (length l))).
Proof.
  intros Hi. unfold Game.index. cbv zeta.
  rewrite (bool_decide_eq_true_2 (i < 0)%Z) by lia.
  by rewrite bool_decide_eq_true_2 by lia.
Qed.

Lemma index_out_of_range {A} (l : list A) (i : Z) :
  (i < - Z.of_nat (length l) ∨ Z.of_nat (length l) ≤ i)%Z →
  Game.index l i = Game.Raise Game.IndexError.
Proof.
  intros Hi. unfold Game.index. cbv zeta.
  destruct (decide (i < 0)%Z) as [Hneg|Hneg].
  - rewrite (bool_decide_eq_true_2 (i < 0)%Z) by done.
    by rewrite bool_decide_eq_false_2 by lia.
  - rewrite (bool_decide_eq_false_2 (i < 0)%Z) by done.
    by rewrite bool_decide_eq_false_2 by lia.
Qed.

Lemma getitem_in_range {A} (l : list A) (i : Z) (x : A) :
  (0 ≤ i)%Z → l !! Z.to_nat i = Some x → Game.getitem l i = Game.Ok x.
Proof.
  intros Hi Hx. unfold Game.getitem. apply lookup_lt_Some in Hx as Hlt.
  rewrite index_in_range by lia. cbn [mbind Game.result_bind]. by rewrite Hx.
Qed.

Lemma getitem_Ok_in_range {A} (l : list A) (i : Z) (x : A) :
  (0 ≤ i)%Z → Game.getitem l i = Game.Ok x → l !! Z.to_nat i = Some x.
Proof.
  intros Hi. unfold Game.getitem, Game.index. cbv zeta.
  rewrite (bool_decide_eq_false_2 (i < 0)%Z) by lia.
  case_bool_decide; cbn [mbind Game.result_bind]; [|done].
  by destruct (l !! Z.to_nat i); intros [= <-].
Qed.

Lemma setitem_in_range {A} (l : list A) (i : Z) (x : A) :
  (0 ≤ i < Z.of_nat (length l))%Z →
  Game.setitem l i x = Game.Ok (<[Z.to_nat i := x]> l).
Proof.
  intros Hi. unfold Game.setitem. by rewrite index_in_range by lia.
Qed.

Lemma represents_empty_board h w :
  board_represents (Game.mk h w ∅ (Game.empty_board h w) ∅).
Proof.
  unfold board_represents, Game.empty_board; simpl. split_and!.
  - apply length_replicate.
  - intros i row [-> _]%lookup_replicate. apply length_replicate.
  - intros i j row c [-> _]%lookup_replicate [-> _]%lookup_replicate.
    split; [done|set_solver].
  - set_solver.
Qed.

Lemma represents_place h w ms b mf (i j : Z) row :
  board_represents (Game.mk h w ms b mf) →
  (0 ≤ i < h)%Z → (0 ≤ j < w)%Z → b !! Z.to_nat i = Some row →
  board_represents
    (Game.mk h w ({[(i, j)]} ∪ ms)
       (<[Z.to_nat i := <[Z.to_nat j := true]> row]> b) mf).
Proof.
  unfold board_represents; simpl.
  intros (Hlen & Hrows & Hcells & Hin) Hi Hj Hrow. split_and!.
  - by rewrite length_insert.
  - intros i' row' [(Hi' & Hr & _)|[_ Hr]]%list_lookup_insert_Some.
    + subst i' row'. rewrite length_insert. eauto.
    + eauto.
  - intros i' j' row' c [(Hi' & Hr & _)|[Hne Hr]]%list_lookup_insert_Some Hc.
    + subst i' row'.
      apply list_lookup_insert_Some in Hc as [(Hj' & Hc & _)|[Hne Hc]].
      * subst j' c. split; [|done]. intros _. rewrite !Z2Nat.id by lia.
        set_solver.
      * rewrite (Hcells _ _ _ _ Hrow Hc). split; [set_solver|].
        intros [Heq%elem_of_singleton|?]%elem_of_union; [|done].
        inversion Heq. lia.
    + rewrite (Hcells _ _ _ _ Hr Hc). split; [set_solver|].
      intros [Heq%elem_of_singleton|?]%elem_of_union; [|done].
      inversion Heq. lia.
  - intros c [->%elem_of_singleton|Hc]%elem_of_union; [done|]. by apply Hin.
Qed.

Lemma place_mines_spec fuel rng (p : nat) h w target ms b ms' b' :
  board_represents (Game.mk h w ms b ∅) →
  Game.place_mines fuel rng p h w target ms b = Game.Ok (ms', b') →
  board_represents (Game.mk h w ms' b' ∅) ∧ Z.of_nat (size ms') = target.
Proof.
  revert p ms b.
  induction fuel as [|fuel IH]; intros p ms b Hrep; cbn [Game.place_mines].
  - case_bool_decide as Hsz; [done|]. intros [= <- <-].
    split; [done|]. first [done|by apply dec_stable].
  - case_bool_decide as Hsz;
      [|intros [= <- <-]; split; [done|first [done|by apply dec_stable]]].
    destruct (Game.randrange h rng p) as [i|] eqn:Hi;
      cbn [mbind Game.result_bind]; [|done].
    destruct (Game.randrange w rng (S p)) as [j|] eqn:Hj;
      cbn [mbind Game.result_bind]; [|done].
    apply game_randrange_Ok in Hi, Hj.
    destruct (Game.getitem b i) as [row|] eqn:Hrow;
      cbn [mbind Game.result_bind]; [|done].
    destruct (Game.getitem row j) as [c|] eqn:Hc;
      cbn [mbind Game.result_bind]; [|done].
    apply getitem_Ok_in_range in Hrow; [|lia].
    destruct c; cbn [negb]; [by apply IH|].
    destruct Hrep as (Hlen & Hrows & Hcells & Hin) eqn:Hrep'. simpl in *.
    rewrite setitem_in_range by (rewrite (Hrows _ _ Hrow); lia).
    cbn [mbind Game.result_bind].
    rewrite setitem_in_range by lia. cbn [mbind Game.result_bind].
    apply IH. by apply represents_place.
Qed.

Lemma size_list_to_set_le (l : list Cell) :
  size (list_to_set l : gset Cell) ≤ length l.
Proof.
  induction l as [|x l IH].
  - by rewrite list_to_set_nil, size_empty.
  - rewrite list_to_set_cons, size_union_alt, size_singleton. cbn [length].
    assert (size (list_to_set l ∖ {[x]} : gset Cell)
            ≤ size (list_to_set l : gset Cell))
      by (apply subseteq_size; set_solver).
    lia.
Qed.

Lemma length_bind_const {A B} (f : A → list B) (l : list A) (n : nat) :
  (∀ x, length (f x) = n) → length (l ≫= f) = length l * n.
Proof.
  intros Hf. induction l as [|x l IH]; [done|].
  rewrite bind_cons, length_app, Hf, IH. simpl. lia.
Qed.

Lemma length_board_cells h w :
  length (MinesweeperAI.board_cells (MinesweeperAI.init h w))
  = Z.to_nat h * Z.to_nat w.
Proof.
  unfold MinesweeperAI.board_cells; simpl.
  rewrite (length_bind_const _ _ (Z.to_nat w)), length_seqZ; [done|].
  intros row. rewrite (length_bind_const _ _ 1), length_seqZ; [lia|done].
Qed.

(** A set of cells of the board has at most [height * width] cells. *)
Lemma size_on_board h w (X : gset Cell) :
  (∀ c, c ∈ X → (0 ≤ c.1 < h)%Z ∧ (0 ≤ c.2 < w)%Z) →
  size X ≤ Z.to_nat h * Z.to_nat w.
Proof.
  intros HX. rewrite <- length_board_cells.
  etrans; [|apply size_list_to_set_le]. apply subseteq_size.
  intros c Hc. apply elem_of_list_to_set, elem_of_board_cells.
  by apply HX.
Qed.

Lemma game_init_Ok fuel rng h w target g :
  Game.init fuel rng h w target = Game.Ok g →
  board_represents g ∧ Game.height g = h ∧ Game.width g = w
  ∧ Z.of_nat (size (Game.mines g)) = target ∧ Game.mines_found g = ∅.
Proof.
  unfold Game.init.
  destruct (Game.place_mines fuel rng 0 h w target ∅ (Game.empty_board h w))
    as [[ms b]|] eqn:Hp; cbn [mbind Game.result_bind]; [|done].
  intros [= <-]. simpl.
  apply place_mines_spec in Hp as [Hrep Hsz]; [|apply represents_empty_board].
  done.
Qed.

Lemma corner_game_represents : board_represents corner_game.
Proof.
  apply (place_mines_spec 1 (λ _, 0%Z) 0 2 3 1 ∅ (Game.empty_board 2 3));
    [apply represents_empty_board|].
  vm_compute. reflexivity.
Qed.

(** A game that [__init__] returns has the size asked for, the number of
    mines asked for, which is between zero and the number of cells, all on
    the board; the board holds [True] exactly at the mines, no mine is
    found yet, and the game is won from the start only with no mine. *)
Theorem game_init_spec fuel rng h w target g :
  Game.init fuel rng h w target = Game.Ok g →
  board_represents g ∧ Game.height g = h ∧ Game.width g = w
  ∧ Z.of_nat (size (Game.mines g)) = target
  ∧ (0 ≤ target ≤ Z.of_nat (Z.to_nat h * Z.to_nat w))%Z
  ∧ Game.mines_found g = ∅
  ∧ (Game.won g = true ↔ target = 0%Z).
Proof.
  intros Hinit.
  apply game_init_Ok in Hinit as (Hrep & Hh & Hw & Hsz & Hfound).
  assert (Hle : size (Game.mines g) ≤ Z.to_nat h * Z.to_nat w).
  { apply size_on_board. destruct Hrep as (_ & _ & _ & Hin).
    rewrite <- Hh, <- Hw. exact Hin. }
  assert (Hwon : Game.won g = true ↔ target = 0%Z).
  { unfold Game.won. rewrite bool_decide_eq_true, Hfound. split.
    - intros Heq. rewrite <- Heq, size_empty in Hsz. lia.
    - intros Heq. symmetry. apply leibniz_equiv, size_empty_inv. lia. }
  repeat (split; [done || lia|]). exact Hwon.
Qed.

Lemma game_init_spec_witness :
  board_represents corner_game
  ∧ Game.height corner_game = 2%Z ∧ Game.width corner_game = 3%Z
  ∧ Z.of_nat (size (Game.mines corner_game)) = 1%Z
  ∧ (0 ≤ 1 ≤ Z.of_nat (Z.to_nat 2 * Z.to_nat 3))%Z
  ∧ Game.mines_found corner_game = ∅
  ∧ (Game.won corner_game = true ↔ 1%Z = 0%Z).
Proof.
  apply (game_init_spec 1 (λ _, 0%Z) 2 3 1 corner_game).
  vm_compute. reflexivity.
Defined.

(** With no mine to place, [__init__] returns at once, on any board, even
    one without rows; with mines to place on a board without rows or without
    columns, it raises [ValueError] at its first draws. *)
Theorem game_init_edges fuel rng h w target :
  Game.init fuel rng h w 0
  = Game.Ok (Game.mk h w ∅ (Game.empty_board h w) ∅)
  ∧ (target ≠ 0%Z → (h ≤ 0)%Z ∨ (w ≤ 0)%Z →
     Game.init (S fuel) rng h w target = Game.Raise Game.ValueError).
Proof.
  split.
  - unfold Game.init. destruct fuel; cbn [Game.place_mines];
      rewrite size_empty; by rewrite bool_decide_eq_false_2 by (intros H; by apply H).
  - intros Ht Hdim. unfold Game.init. cbn [Game.place_mines].
    rewrite size_empty.
    rewrite bool_decide_eq_true_2 by (intros H; apply Ht; by rewrite <- H).
    destruct (decide (h ≤ 0)%Z) as [Hh|Hh].
    + rewrite (game_randrange_empty h) by done. reflexivity.
    + destruct (Game.randrange h rng 0) as [i|e] eqn:Hi;
        cbn [mbind Game.result_bind].
      * rewrite (game_randrange_empty w) by lia. reflexivity.
      * unfold Game.randrange, MinesweeperAI.randrange in Hi.
        rewrite bool_decide_eq_true_2 in Hi by lia. done.
Qed.

(** Asked for more mines than the board has cells, or for a negative
    number of them, [__init__] on a board with cells neither returns nor
    raises: the loop goes on, whatever the draws are. *)
Theorem game_init_never_ends fuel rng h w target :
  (0 < h)%Z → (0 < w)%Z →
  (target < 0)%Z ∨ (Z.of_nat (Z.to_nat h * Z.to_nat w) < target)%Z →
  Game.init fuel rng h w target = Game.Raise Game.OutOfFuel.
Proof.
  intros Hh Hw Ht. unfold Game.init.
  assert (Hloop : ∀ p ms b, board_represents (Game.mk h w ms b ∅) →
            Game.place_mines fuel rng p h w target ms b
            = Game.Raise Game.OutOfFuel).
  { induction fuel as [|fuel IH]; intros p ms b Hrep; cbn [Game.place_mines].
    - assert (Hle : size ms ≤ Z.to_nat h * Z.to_nat w).
      { apply size_on_board. by destruct Hrep as (_ & _ & _ & Hin). }
      by rewrite bool_decide_eq_true_2 by lia.
    - assert (Hle : size ms ≤ Z.to_nat h * Z.to_nat w).
      { apply size_on_board. by destruct Hrep as (_ & _ & _ & Hin). }
      rewrite bool_decide_eq_true_2 by lia.
      destruct (Game.randrange h rng p) as [i|e] eqn:Hi.
      2:{ unfold Game.randrange, MinesweeperAI.randrange in Hi.
          rewrite bool_decide_eq_true_2 in Hi by lia. done. }
      destruct (Game.randrange w rng (S p)) as [j|e] eqn:Hj.
      2:{ unfold Game.randrange, MinesweeperAI.randrange in Hj.
          rewrite bool_decide_eq_true_2 in Hj by lia. done. }
      cbn [mbind Game.result_bind].
      apply game_randrange_Ok in Hi, Hj.
      pose proof Hrep as (Hlen & Hrows & Hcells & Hin). simpl in *.
      destruct (lookup_lt_is_Some_2 b (Z.to_nat i)) as [row Hrow]; [lia|].
      rewrite (getitem_in_range b i row) by (done || lia).
      cbn [mbind Game.result_bind].
      destruct (lookup_lt_is_Some_2 row (Z.to_nat j)) as [c Hc];
        [rewrite (Hrows _ _ Hrow); lia|].
      rewrite (getitem_in_range row j c) by (done || lia).
      cbn [mbind Game.result_bind].
      destruct c; cbn [negb]; [by apply IH|].
      rewrite setitem_in_range by (rewrite (Hrows _ _ Hrow); lia).
      cbn [mbind Game.result_bind].
      rewrite setitem_in_range by lia. cbn [mbind Game.result_bind].
      apply IH. by apply represents_place. }
  by rewrite Hloop by apply represents_empty_board.
Qed.

Lemma game_init_never_ends_witness :
  Game.init 7 (λ p, Z.of_nat p) 1 1 2 = Game.Raise Game.OutOfFuel.
Proof.
  apply (game_init_never_ends 7 (λ p, Z.of_nat p) 1 1 2); simpl; lia.
Defined.

Lemma game_cell_read g cell :
  board_represents g → in_bounds (Game.height g) (Game.width g) cell →
  ∃ row, Game.getitem (Game.board g) cell.1 = Game.Ok row
       ∧ Game.getitem row cell.2 = Game.Ok (bool_decide (cell ∈ Game.mines g)).
Proof.
  intros (Hlen & Hrows & Hcells & Hin) [Hi Hj].
  destruct (lookup_lt_is_Some_2 (Game.board g) (Z.to_nat cell.1)) as [row Hrow];
    [lia|].
  destruct (lookup_lt_is_Some_2 row (Z.to_nat cell.2)) as [c Hc];
    [rewrite (Hrows _ _ Hrow); lia|].
  exists row. split; [apply getitem_in_range; [lia|done]|].
  rewrite (getitem_in_range row cell.2 c) by (done || lia). f_equal.
  pose proof (Hcells _ _ _ _ Hrow Hc) as Hiff.
  rewrite !Z2Nat.id in Hiff by lia.
  destruct cell as [i j]; simpl in *. symmetry. destruct c.
  - apply bool_decide_eq_true. by apply Hiff.
  - apply bool_decide_eq_false. intros Hm%Hiff. done.
Qed.

Lemma game_is_mine_env g cell :
  board_represents g → in_bounds (Game.height g) (Game.width g) cell →
  Game.is_mine g cell = Game.Ok (Minesweeper.is_mine (Game.env g) cell).
Proof.
  intros Hrep Hin. destruct (game_cell_read g cell Hrep Hin) as (row & Hr & Hc).
  unfold Game.is_mine. rewrite Hr. cbn [mbind Game.result_bind]. by rewrite Hc.
Qed.

Lemma game_count_cell_env g cell count d :
  board_represents g →
  Game.count_cell g cell count d
  = Game.Ok (if negb (bool_decide (d = cell))
                && (MinesweeperAI.in_range d.1 (Game.height g)
                    && MinesweeperAI.in_range d.2 (Game.width g))
                && Minesweeper.is_mine (Game.env g) d
             then (count + 1)%Z else count).
Proof.
  intros Hrep. unfold Game.count_cell.
  case_bool_decide as Hd; [done|]. cbn [negb andb].
  destruct (MinesweeperAI.in_range d.1 (Game.height g)
            && MinesweeperAI.in_range d.2 (Game.width g)) eqn:Hin; [|done].
  apply andb_true_iff in Hin as [Hi Hj]. apply in_range_spec in Hi, Hj.
  destruct (game_cell_read g d Hrep) as (row & Hr & Hc); [done|].
  rewrite Hr. cbn [mbind Game.result_bind]. rewrite Hc.
  cbn [mbind Game.result_bind andb]. unfold Minesweeper.is_mine. simpl.
  by destruct (bool_decide (d ∈ Game.mines g)).
Qed.

Lemma game_count_cells_env g cell (l : list Cell) (count : Z) :
  board_represents g →
  foldl (λ acc d, count ← acc; Game.count_cell g cell count d)
        (Game.Ok count) l
  = Game.Ok (count + Z.of_nat (length (List.filter
      (λ d, negb (bool_decide (d = cell))
            && (MinesweeperAI.in_range d.1 (Game.height g)
                && MinesweeperAI.in_range d.2 (Game.width g))
            && Minesweeper.is_mine (Game.env g) d) l)))%Z.
Proof.
  intros Hrep. revert count. induction l as [|d l IH]; intros count.
  - simpl. f_equal. lia.
  - cbn [foldl List.filter]. cbn [mbind Game.result_bind].
    rewrite game_count_cell_env by done.
    destruct (negb (bool_decide (d = cell)) && _ && _); rewrite IH;
      f_equal; cbn [length]; lia.
Qed.

Lemma game_nearby_mines_env g cell :
  board_represents g →
  Game.nearby_mines g cell
  = Game.Ok (Minesweeper.nearby_mines (Game.env g) cell).
Proof.
  intros Hrep. unfold Game.nearby_mines, Minesweeper.nearby_mines.
  rewrite game_count_cells_env by done. f_equal.
Qed.

Lemma told_consistent g o :
  board_represents g → told g o → consistent (Game.env g) o.
Proof.
  intros Hrep (Hin & Hmine & Hcount). split_and!; [done| |].
  - rewrite game_is_mine_env in Hmine by done. by inversion Hmine.
  - rewrite game_nearby_mines_env in Hcount by done. by inversion Hcount.
Qed.


(** On a board that holds [True] exactly at the mines, the methods of the
    game return what the environment of the agent's observations is defined
    by: [is_mine], for a cell of the board, whether the cell is in [mines],
    and [nearby_mines], for any cell, the number of mines around it on the
    board, without raising; so what the game tells a player is an
    observation the board gives. *)
Theorem game_methods_read_the_mines g cell :
  board_represents g →
  (in_bounds (Game.height g) (Game.width g) cell →
   Game.is_mine g cell = Game.Ok (Minesweeper.is_mine (Game.env g) cell))
  ∧ Game.nearby_mines g cell
    = Game.Ok (Minesweeper.nearby_mines (Game.env g) cell)
  ∧ (∀ o, told g o → consistent (Game.env g) o).
Proof.
  intros Hrep. split_and!.
  - by apply game_is_mine_env.
  - by apply game_nearby_mines_env.
  - intros o. by apply told_consistent.
Qed.

Lemma game_methods_read_the_mines_witness :
  (in_bounds (Game.height corner_game) (Game.width corner_game) (0, 1)%Z →
   Game.is_mine corner_game (0, 1)%Z
   = Game.Ok (Minesweeper.is_mine (Game.env corner_game) (0, 1)%Z))
  ∧ Game.nearby_mines corner_game (0, 1)%Z
    = Game.Ok (Minesweeper.nearby_mines (Game.env corner_game) (0, 1)%Z)
  ∧ (∀ o, told corner_game o → consistent (Game.env corner_game) o).
Proof.
  apply (game_methods_read_the_mines corner_game (0, 1)%Z).
  apply corner_game_represents.
Defined.

(** The two classes together: on a game [__init__] has returned, an agent
    told what [is_mine] and [nearby_mines] return for the cells played
    takes every call, marks safe only cells for which [is_mine] returns
    [False], marks as mines only cells for which it returns [True], and
    proposes as a safe move only a cell that is not a mine and not played. *)
Theorem play_on_a_game fuel rng h w target g obs :
  Game.init fuel rng h w target = Game.Ok g →
  Forall (told g) obs →
  ∃ ai,
    add_knowledge_all obs (MinesweeperAI.init h w) = Some ai
    ∧ (∀ c, c ∈ MinesweeperAI.safes ai → Game.is_mine g c = Game.Ok false)
    ∧ (∀ c, c ∈ MinesweeperAI.mines ai → Game.is_mine g c = Game.Ok true)
    ∧ (∀ order c,
         order ≡ₚ elements (MinesweeperAI.safes ai) →
         (MinesweeperAI.make_safe_move order ai).1 = Some c →
         Game.is_mine g c = Game.Ok false
         ∧ c ∉ MinesweeperAI.moves_made ai).
Proof.
  intros Hinit Hobs.
  apply game_init_Ok in Hinit as (Hrep & Hh & Hw & Hsz & _).
  assert (Hcons : Forall (consistent (Game.env g)) obs).
  { eapply Forall_impl; [exact Hobs|]. intros o. by apply told_consistent. }
  destruct (agrees_add_knowledge_all (Game.env g) obs _
              (agrees_init (Game.env g)) Hcons)
    as (ai & Hrun & [_ _ _ _ Hsafes Hmines] & _).
  simpl in Hrun, Hsafes, Hmines. rewrite Hh, Hw in Hrun.
  destruct (on_board_add_knowledge_all h w obs (MinesweeperAI.init h w))
    as (ai2 & Hrun2 & (_ & _ & Hsets & _)).
  { eapply Forall_impl; [exact Hobs|]. intros o (Hin & _).
    by rewrite Hh, Hw in Hin. }
  { intros r Hr. by apply elem_of_nil in Hr. }
  { apply on_board_init. }
  rewrite Hrun in Hrun2. inversion Hrun2; subst ai2.
  assert (Hsafe : ∀ c, c ∈ MinesweeperAI.safes ai →
            Game.is_mine g c = Game.Ok false).
  { intros c Hc. rewrite game_is_mine_env; [|done|].
    - f_equal. apply bool_decide_eq_false. simpl. set_solver.
    - rewrite Hh, Hw. apply Hsets. set_solver. }
  exists ai. split_and!; [done|done| |].
  - intros c Hc. rewrite game_is_mine_env; [|done|].
    + f_equal. apply bool_decide_eq_true. simpl. set_solver.
    + rewrite Hh, Hw. apply Hsets. set_solver.
  - intros order c Hord Hmove.
    unfold MinesweeperAI.make_safe_move in Hmove; simpl in Hmove.
    apply find_some in Hmove as [Hin Hp].
    apply list_elem_of_In in Hin. rewrite Hord, elem_of_elements in Hin.
    apply bool_decide_eq_true in Hp. split; [by apply Hsafe|done].
Qed.

Lemma play_on_a_game_witness :
  ∃ ai,
    add_knowledge_all corner_play (MinesweeperAI.init 2 3) = Some ai
    ∧ (∀ c, c ∈ MinesweeperAI.safes ai →
         Game.is_mine corner_game c = Game.Ok false)
    ∧ (∀ c, c ∈ MinesweeperAI.mines ai →
         Game.is_mine corner_game c = Game.Ok true)
    ∧ (∀ order c,
         order ≡ₚ elements (MinesweeperAI.safes ai) →
         (MinesweeperAI.make_safe_move order ai).1 = Some c →
         Game.is_mine corner_game c = Game.Ok false
         ∧ c ∉ MinesweeperAI.moves_made ai).
Proof.
  apply (play_on_a_game 1 (λ _, 0%Z) 2 3 1 corner_game corner_play).
  - vm_compute. reflexivity.
  - repeat apply Forall_cons_2; try apply Forall_nil_2;
      (split; [unfold in_bounds; simpl; lia|split; vm_compute; reflexivity]).
Defined.

(** [is_mine] off the board: [self.board[i][j]] takes negative indices from
    the end, so a row index [i - height] or a column index [j - width] reads
    the cell [(i, j)] of the board; any index further out raises
    [IndexError]. *)
Theorem is_mine_off_the_board g cell :
  board_represents g →
  in_bounds (Game.height g) (Game.width g) cell →
  Game.is_mine g cell = Game.Ok (bool_decide (cell ∈ Game.mines g))
  ∧ Game.is_mine g (cell.1 - Game.height g, cell.2)%Z = Game.is_mine g cell
  ∧ Game.is_mine g (cell.1, cell.2 - Game.width g)%Z = Game.is_mine g cell
  ∧ Game.is_mine g (cell.1 - Game.height g, cell.2 - Game.width g)%Z
    = Game.is_mine g cell
  ∧ (∀ i j, (i < - Game.height g ∨ Game.height g ≤ i)%Z →
       Game.is_mine g (i, j) = Game.Raise Game.IndexError)
  ∧ (∀ i j, (- Game.height g ≤ i < Game.height g)%Z →
       (j < - Game.width g ∨ Game.width g ≤ j)%Z →
       Game.is_mine g (i, j) = Game.Raise Game.IndexError).
Proof.
  intros Hrep Hin.
  pose proof Hrep as (Hlen & Hrows & Hcells & Hmines).
  destruct Hin as [Hi Hj].
  assert (Hget : ∀ {A} (l : list A) (i : Z),
            (0 ≤ i < Z.of_nat (length l))%Z →
            Game.getitem l (i - Z.of_nat (length l)) = Game.getitem l i).
  { intros A l i Hil. unfold Game.getitem.
    rewrite index_from_end, index_in_range by lia.
    by replace (i - Z.of_nat (length l) + Z.of_nat (length l))%Z with i by lia. }
  assert (Hh : Game.height g = Z.of_nat (length (Game.board g))) by lia.
  destruct (game_cell_read g cell Hrep) as (row & Hr & Hc); [done|].
  assert (Hrow : Game.board g !! Z.to_nat cell.1 = Some row)
    by (apply getitem_Ok_in_range; [lia|done]).
  assert (Hw : Game.width g = Z.of_nat (length row))
    by (rewrite (Hrows _ _ Hrow); lia).
  assert (Hm : Game.is_mine g cell = Game.Ok (bool_decide (cell ∈ Game.mines g))).
  { unfold Game.is_mine. rewrite Hr. cbn [mbind Game.result_bind]. exact Hc. }
  split_and!.
  - exact Hm.
  - rewrite Hm. unfold Game.is_mine. cbn [fst snd].
    rewrite Hh, Hget by lia. rewrite Hr. cbn [mbind Game.result_bind]. exact Hc.
  - rewrite Hm. unfold Game.is_mine. cbn [fst snd].
    rewrite Hr. cbn [mbind Game.result_bind].
    rewrite Hw, Hget by lia. exact Hc.
  - rewrite Hm. unfold Game.is_mine. cbn [fst snd].
    rewrite Hh, Hget by lia. rewrite Hr. cbn [mbind Game.result_bind].
    rewrite Hw, Hget by lia. exact Hc.
  - intros i j Hout. unfold Game.is_mine, Game.getitem. cbn [fst snd].
    by rewrite index_out_of_range by lia.
  - intros i j Hi' Hout. unfold Game.is_mine. cbn [fst snd].
    assert (Hex : ∃ row', Game.getitem (Game.board g) i = Game.Ok row'
                          ∧ length row' = Z.to_nat (Game.width g)).
    { destruct (decide (i < 0)%Z) as [Hneg|Hneg].
      - destruct (lookup_lt_is_Some_2 (Game.board g)
                    (Z.to_nat (i + Game.height g))) as [row' Hrow']; [lia|].
        exists row'. split; [|by eapply Hrows].
        replace i with ((i + Game.height g) - Z.of_nat (length (Game.board g)))%Z
          by lia.
        rewrite Hget by lia. apply getitem_in_range; [lia|done].
      - destruct (lookup_lt_is_Some_2 (Game.board g) (Z.to_nat i))
          as [row' Hrow']; [lia|].
        exists row'. split; [|by eapply Hrows].
        apply getitem_in_range; [lia|done]. }
    destruct Hex as (row' & -> & Hlen'). cbn [mbind Game.result_bind].
    unfold Game.getitem. by rewrite index_out_of_range by lia.
Qed.

Lemma is_mine_off_the_board_witness :
  Game.is_mine corner_game (0, 0)%Z
  = Game.Ok (bool_decide ((0, 0)%Z ∈ Game.mines corner_game))
  ∧ Game.is_mine corner_game (0 - Game.height corner_game, 0)%Z
    = Game.is_mine corner_game (0, 0)%Z
  ∧ Game.is_mine corner_game (0, 0 - Game.width corner_game)%Z
    = Game.is_mine corner_game (0, 0)%Z
  ∧ Game.is_mine corner_game
      (0 - Game.height corner_game, 0 - Game.width corner_game)%Z
    = Game.is_mine corner_game (0, 0)%Z
  ∧ (∀ i j, (i < - Game.height corner_game ∨ Game.height corner_game ≤ i)%Z →
       Game.is_mine corner_game (i, j) = Game.Raise Game.IndexError)
  ∧ (∀ i j, (- Game.height corner_game ≤ i < Game.height corner_game)%Z →
       (j < - Game.width corner_game ∨ Game.width corner_game ≤ j)%Z →
       Game.is_mine corner_game (i, j) = Game.Raise Game.IndexError).
Proof.
  apply (is_mine_off_the_board corner_game (0, 0)%Z).
  - apply corner_game_represents.
  - unfold in_bounds. simpl. lia.
Defined.
Lemma game_randrange_pos (n : Z) rng (p : nat) :
  (0 < n)%Z → Game.randrange n rng p = Game.Ok (rng p `mod` n)%Z.
Proof.
  intros Hn. unfold Game.randrange, MinesweeperAI.randrange.
  by rewrite bool_decide_eq_true_2 by done.
Qed.

Lemma drawn_S h w rng (k : nat) :
  drawn h w rng (S k) = {[draw h w rng k]} ∪ drawn h w rng k.
Proof.
  unfold drawn. rewrite seq_S, fmap_app, list_to_set_app_L. simpl.
  by rewrite (right_id_L ∅ (∪)), (comm_L (∪)).
Qed.

Lemma draw_in_bounds h w rng (j : nat) :
  (0 < h)%Z → (0 < w)%Z → in_bounds h w (draw h w rng j).
Proof.
  intros Hh Hw. unfold in_bounds, draw; simpl.
  split; apply Z.mod_pos_bound; lia.
Qed.

Lemma place_mines_draws (n : nat) : ∀ fuel rng h w target (j : nat) b,
  (0 < h)%Z → (0 < w)%Z →
  board_represents (Game.mk h w (drawn h w rng j) b ∅) →
  (∀ k', j ≤ k' < j + n → Z.of_nat (size (drawn h w rng k')) ≠ target) →
  Z.of_nat (size (drawn h w rng (j + n))) = target →
  n ≤ fuel →
  ∃ b',
    Game.place_mines fuel rng (2 * j) h w target (drawn h w rng j) b
    = Game.Ok (drawn h w rng (j + n), b')
    ∧ board_represents (Game.mk h w (drawn h w rng (j + n)) b' ∅).
Proof.
  induction n as [|n IH]; intros fuel rng h w target j b Hh Hw Hrep Hne Heq Hfuel.
  - rewrite Nat.add_0_r in *. exists b. split; [|done].
    destruct fuel; cbn [Game.place_mines];
      by rewrite bool_decide_eq_false_2 by (intros H; by apply H).
  - destruct fuel as [|fuel]; [lia|]. cbn [Game.place_mines].
    rewrite bool_decide_eq_true_2 by (apply Hne; lia).
    rewrite !game_randrange_pos by done. cbn [mbind Game.result_bind].
    destruct (game_cell_read (Game.mk h w (drawn h w rng j) b ∅)
                (draw h w rng j) Hrep (draw_in_bounds h w rng j Hh Hw))
      as (row & Hr & Hc).
    cbn [Game.board Game.mines] in Hr, Hc.
    change ((rng (2 * j)%nat `mod` h)%Z) with (draw h w rng j).1.
    change ((rng (S (2 * j)) `mod` w)%Z) with (draw h w rng j).2.
    rewrite Hr. cbn [mbind Game.result_bind]. rewrite Hc.
    cbn [mbind Game.result_bind].
    replace (S (S (2 * j))) with (2 * S j) by lia.
    replace (j + S n) with (S j + n) in * by lia.
    pose proof (draw_in_bounds h w rng j Hh Hw) as [Hi Hj].
    case_bool_decide as Hin; cbn [negb].
    + assert (Hd : drawn h w rng (S j) = drawn h w rng j)
        by (rewrite drawn_S; apply subseteq_union_1_L;
            by apply singleton_subseteq_l).
      rewrite <- Hd.
      apply IH; [done|done| |intros k' Hk'; apply Hne; lia|done|lia].
      rewrite Hd. exact Hrep.
    + pose proof Hrep as (Hlen & Hrows & _). simpl in Hlen, Hrows.
      apply getitem_Ok_in_range in Hr as Hrow; [|lia].
      rewrite setitem_in_range by (rewrite (Hrows _ _ Hrow); lia).
      cbn [mbind Game.result_bind].
      rewrite setitem_in_range by lia. cbn [mbind Game.result_bind].
      replace ({[((draw h w rng j).1, (draw h w rng j).2)]} ∪ drawn h w rng j)
        with (drawn h w rng (S j))
        by (rewrite drawn_S; by destruct (draw h w rng j)).
      apply IH; [done|done| |intros k' Hk'; apply Hne; lia|done|lia].
      rewrite drawn_S. destruct (draw h w rng j) as [x y] eqn:Hxy.
      apply represents_place; [exact Hrep|exact Hi|exact Hj|exact Hrow].
Qed.

(** [__init__] returns as soon as the cells drawn are as many as the mines
    asked for: when the first [k] draws are the first to hold [target]
    distinct cells, the game returned has these cells as its mines, and its
    board holds [True] exactly there. *)
Theorem game_init_returns fuel rng h w target (k : nat) :
  (0 < h)%Z → (0 < w)%Z →
  Z.of_nat (size (drawn h w rng k)) = target →
  (∀ k', k' < k → Z.of_nat (size (drawn h w rng k')) ≠ target) →
  k ≤ fuel →
  ∃ g,
    Game.init fuel rng h w target = Game.Ok g
    ∧ Game.mines g = drawn h w rng k
    ∧ Game.height g = h ∧ Game.width g = w ∧ Game.mines_found g = ∅
    ∧ board_represents g.
Proof.
  intros Hh Hw Heq Hne Hfuel.
  destruct (place_mines_draws k fuel rng h w target 0 (Game.empty_board h w))
    as (b' & Hp & Hrep); try done.
  { apply represents_empty_board. }
  { intros k' Hk'. apply Hne. lia. }
  unfold Game.init. change (2 * 0) with 0 in Hp.
  change (drawn h w rng 0) with (∅ : gset Cell) in Hp.
  rewrite Hp. cbn [mbind Game.result_bind]. eexists. split; [reflexivity|].
  done.
Qed.

Lemma game_init_returns_witness :
  ∃ g,
    Game.init 2 (λ p, Z.of_nat p) 2 3 2 = Game.Ok g
    ∧ Game.mines g = drawn 2 3 (λ p, Z.of_nat p) 2
    ∧ Game.height g = 2%Z ∧ Game.width g = 3%Z ∧ Game.mines_found g = ∅
    ∧ board_represents g.
Proof.
  apply (game_init_returns 2 (λ p, Z.of_nat p) 2 3 2 2); try lia.
  - vm_compute. reflexivity.
  - intros k' Hk'. destruct k' as [|[|k']]; [vm_compute; discriminate..|lia].
Defined.
End game.
